(** * JUCE [HashMap] (juce_HashMap.h): a shallow embedding and its properties

    The container is a chained hash table: an [Array] of slots, each slot
    the head pointer of a singly linked chain of [HashEntry] nodes, plus
    the counter [totalNumItems].  The map owns its nodes exclusively, so a
    chain is modelled as the list of its entries from the head pointer
    along [nextEntry], and the slot array as the list of the chains.

    Integers.  The item counter, the slot count and the slot indices are
    [int]s, held as [Z].  Signed overflow is undefined in C++: where [set]
    computes on them ([++totalNumItems], [getNumSlots() * 3],
    [getNumSlots() * 2]) a result outside the [int] range is an error of
    the model ([IntOverflow]), and the theorems about [set] and
    [remapTable] carry the bounds under which it does not occur.  Where
    the source computes on an [int] key ([std::abs] in the default hash)
    the 32-bit two's complement wrap-around is written out.

    Failure.  [generateHashFor] asserts that the hash function honoured its
    contract; an out-of-range hash is an error of the model
    ([HashOutOfRange]).  [set] and [remapTable] call each other, so both
    take the remaining nesting depth as fuel ([OutOfFuel] when it is used
    up); a depth of two suffices on every table the public operations can
    reach, and a depth of three on every well-formed table. *)

From stdpp Require Import base decidable option numbers list list_numbers.

Local Open Scope Z_scope.

(** ** 32-bit [int] *)

Definition INT_MIN : Z := - 2 ^ 31.
Definition INT_MAX : Z := 2 ^ 31 - 1.

Definition is_int (z : Z) : Prop := INT_MIN <= z <= INT_MAX.

(** Reduction of a mathematical integer to its two's complement [int]. *)
Definition wrap_int (z : Z) : Z := (z + 2 ^ 31) mod 2 ^ 32 - 2 ^ 31.

(** [std::abs (int)]: the negation of [INT_MIN] does not fit and wraps back
    to [INT_MIN]. *)
Definition std_abs (k : Z) : Z := wrap_int (Z.abs k).

(** Modelled from the spec: [isPositiveAndBelow] (juce_MathsFunctions.h is
    not among the sources), the test that a hash lies in [[0, numSlots)]. *)
Definition isPositiveAndBelow (valueToTest upperLimit : Z) : bool :=
  (0 <=? valueToTest) && (valueToTest <? upperLimit).

(** ** DefaultHashFunctions *)

Module DefaultHashFunctions.

(** [static int generateHash (const int key, const int upperLimit)]
    is [std::abs (key) % upperLimit]; [%] truncates towards zero, which
    is [Z.rem].  The source divides by zero when [upperLimit] is 0: the
    definition describes the function for [upperLimit <> 0] only, and
    every statement about it has a positive [upperLimit]. *)
Definition generateHash (key upperLimit : Z) : Z :=
  Z.rem (std_abs key) upperLimit.

(** The conversion of an [int] to [uint32]. *)
Definition to_uint32 (z : Z) : Z := z mod 2 ^ 32.

(** [static int generateHash (const String& key, const int upperLimit)] is
    [(int) (((uint32) key.hashCode()) % upperLimit)]: the remainder is
    taken on [uint32], to which [upperLimit] is converted, and the result
    is cast back to [int].  [String::hashCode] is not among the sources and
    is a parameter. *)
Definition generateHashString {S : Type} (hashCode : S → Z)
  (key : S) (upperLimit : Z) : Z :=
  wrap_int (to_uint32 (hashCode key) mod to_uint32 upperLimit).

(** [static int generateHash (const var& key, const int upperLimit)] hashes
    [key.toString()]; [var::toString] is a parameter too. *)
Definition generateHashVar {X S : Type} (toString : X → S) (hashCode : S → Z)
  (key : X) (upperLimit : Z) : Z :=
  generateHashString hashCode (toString key) upperLimit.

End DefaultHashFunctions.

(** ** Results of fallible operations *)

Inductive result (A : Type) : Type :=
| Ok (a : A)
| HashOutOfRange
| IntOverflow
| OutOfFuel.

Arguments Ok {A} a.
Arguments HashOutOfRange {A}.
Arguments IntOverflow {A}.
Arguments OutOfFuel {A}.

Definition bind {A B : Type} (r : result A) (f : A → result B) : result B :=
  match r with
  | Ok a => f a
  | HashOutOfRange => HashOutOfRange
  | IntOverflow => IntOverflow
  | OutOfFuel => OutOfFuel
  end.

Notation "'do' x <- e1 ; e2" := (bind e1 (fun x => e2))
  (at level 10, x name, e1 at level 100, e2 at level 200,
   format "'[v' 'do'  x  <-  e1 ;  '/' e2 ']'").

(** The value of an [int] expression whose mathematical value is [z]:
    [z] itself when it is representable, an error when the computation
    overflows. *)
Definition int_of (z : Z) : result Z :=
  if (INT_MIN <=? z) && (z <=? INT_MAX) then Ok z else IntOverflow.

(** ** The container *)

(** A [HashEntry] without its [nextEntry] pointer, which is the tail of
    the chain list. *)
Record HashEntry {KeyType ValueType : Type} : Type :=
  mkEntry { key : KeyType; value : ValueType }.

Arguments mkEntry {KeyType ValueType} key value.

(** The slot array, each slot given by its chain, and the item counter. *)
Record HashMap {KeyType ValueType : Type} : Type := mkHashMap {
  slots : list (list (@HashEntry KeyType ValueType));
  totalNumItems : Z
}.

Arguments mkHashMap {KeyType ValueType} slots totalNumItems.

(** ** Data of the examples: [HashMap<int, int>] *)

(** The [int] keys on which [std::abs] does not overflow. *)
Definition intKey (k : Z) : Prop := INT_MIN < k ∧ k <= INT_MAX.

(** The keys [1, ..., n]. *)
Definition keysUpTo (n : nat) : list Z := Z.of_nat <$> seq 1 n.

(** One [set (k, val k)] call for each key of the list. *)
Definition assignAll {V : Type} (val : Z → V) (keys : list Z) : list (Z * V) :=
  (λ k, (k, val k)) <$> keys.

(** A map with three slots, as left by [set (4, 40); set (1, 10);
    set (2, 20)] on [HashMap<int, int> (3)]. *)
Definition sampleMap : @HashMap Z Z :=
  mkHashMap [[]; [mkEntry 1 10; mkEntry 4 40]; [mkEntry 2 20]] 3.

(** The same map after [set (3, 30)]: four entries in three slots. *)
Definition fullMap : @HashMap Z Z :=
  mkHashMap [[mkEntry 3 30]; [mkEntry 1 10; mkEntry 4 40]; [mkEntry 2 20]] 4.

(** ** The operations *)

Section HashMap.

Context {KeyType ValueType : Type}.
Context `{!EqDecision KeyType, !EqDecision ValueType}.

(** [HashFunctionToUse::generateHash (key, upperLimit)]. *)
Variable generateHash : KeyType → Z → Z.

(** [ValueType()], the default-constructed value. *)
Variable defaultValue : ValueType.

Abbreviation HashEntry := (@HashEntry KeyType ValueType).
Abbreviation HashMap := (@HashMap KeyType ValueType).
Abbreviation chain := (list HashEntry).

(** Modelled from the spec: [Array::insertMultiple (0, nullptr, n)] on the
    empty slot array (juce_Array.h is not among the sources): [n] null
    heads, so that the length of the array is the slot count; none for a
    count that is not positive. *)
Definition insertMultipleNull (numberOfTimesToInsertIt : Z) : list chain :=
  replicate (Z.to_nat numberOfTimesToInsertIt) [].

(** [explicit HashMap (int numberOfSlots)]. *)
Definition newHashMap (numberOfSlots : Z) : HashMap :=
  mkHashMap (insertMultipleNull numberOfSlots) 0.

Definition size (m : HashMap) : Z := totalNumItems m.

Definition getNumSlots (m : HashMap) : Z := Z.of_nat (length (slots m)).

(** Modelled from the spec: [Array::getUnchecked] (juce_Array.h is not
    among the sources), the chain head stored at a slot index that passed
    the range check. *)
Definition getUnchecked (s : list chain) (i : Z) : chain :=
  default [] (s !! Z.to_nat i).

(** Modelled from the spec: [Array::set] (juce_Array.h is not among the
    sources), the store of a chain head at a slot index that passed the
    range check. *)
Definition slotsSet (s : list chain) (i : Z) (head : chain) : list chain :=
  <[Z.to_nat i := head]> s.

Definition generateHashFor (k : KeyType) (m : HashMap) : result Z :=
  let hash := generateHash k (getNumSlots m) in
  if isPositiveAndBelow hash (getNumSlots m) then Ok hash else HashOutOfRange.

(** *** Walking one chain *)

(** The loop of [operator[]]: the value of the first entry whose key
    matches, [None] when the walk reaches the null pointer. *)
Fixpoint chainFind (k : KeyType) (c : chain) : option ValueType :=
  match c with
  | [] => None
  | e :: rest => if decide (key e = k) then Some (value e) else chainFind k rest
  end.

(** The loop of [set]: overwrite the value of the first entry whose key
    matches; [None] when no entry matches. *)
Fixpoint chainReplace (k : KeyType) (v : ValueType) (c : chain) : option chain :=
  match c with
  | [] => None
  | e :: rest =>
      if decide (key e = k) then Some (mkEntry (key e) v :: rest)
      else match chainReplace k v rest with
           | Some rest' => Some (e :: rest')
           | None => None
           end
  end.

(** The loop of [remove] on one chain: every matching entry is unlinked
    and the counter decremented; the walk continues after a match. *)
Fixpoint chainRemove (k : KeyType) (c : chain) (count : Z) : chain * Z :=
  match c with
  | [] => ([], count)
  | e :: rest =>
      if decide (key e = k) then chainRemove k rest (count - 1)
      else let '(rest', count') := chainRemove k rest count in (e :: rest', count')
  end.

(** The inner loop of [removeValue] on one chain. *)
Fixpoint chainRemoveValue (v : ValueType) (c : chain) (count : Z) : chain * Z :=
  match c with
  | [] => ([], count)
  | e :: rest =>
      if decide (value e = v) then chainRemoveValue v rest (count - 1)
      else let '(rest', count') := chainRemoveValue v rest count in (e :: rest', count')
  end.

(** *** Queries *)

(** [operator[]]. *)
Definition operator_subscript (k : KeyType) (m : HashMap) : result ValueType :=
  do h <- generateHashFor k m;
  Ok (default defaultValue (chainFind k (getUnchecked (slots m) h))).

Definition contains (k : KeyType) (m : HashMap) : result bool :=
  do h <- generateHashFor k m;
  Ok (bool_decide (is_Some (chainFind k (getUnchecked (slots m) h)))).

Definition containsValue (v : ValueType) (m : HashMap) : bool :=
  existsb (existsb (fun e => bool_decide (value e = v))) (reverse (slots m)).

(** *** Updates *)

(** [swapWith]: the two objects exchange slot arrays and counters; the
    result is the pair (this, other) after the call. *)
Definition swapWith (this other : HashMap) : HashMap * HashMap :=
  (mkHashMap (slots other) (totalNumItems other),
   mkHashMap (slots this) (totalNumItems this)).

(** [clear]: every head is reset to null, the slot count stays. *)
Definition clear (m : HashMap) : HashMap :=
  mkHashMap (replicate (length (slots m)) []) 0.

Definition remove (k : KeyType) (m : HashMap) : result HashMap :=
  do h <- generateHashFor k m;
  let '(c, n) := chainRemove k (getUnchecked (slots m) h) (totalNumItems m) in
  Ok (mkHashMap (slotsSet (slots m) h c) n).

(** The outer loop of [removeValue], from the slot [i] downwards. *)
Fixpoint removeValueFrom (v : ValueType) (i : nat) (s : list chain) (count : Z)
  : list chain * Z :=
  match i with
  | O => (s, count)
  | S i' =>
      let '(c, count') := chainRemoveValue v (getUnchecked s (Z.of_nat i')) count in
      removeValueFrom v i' (slotsSet s (Z.of_nat i') c) count'
  end.

Definition removeValue (v : ValueType) (m : HashMap) : HashMap :=
  let '(s, n) := removeValueFrom v (length (slots m)) (slots m) (totalNumItems m) in
  mkHashMap s n.

(** The body of [remapTable] with the callee [newTable.set] abstracted:
    the inner loop over one chain, the outer loop over the slots from the
    last one down to the first, then [swapWith (newTable)]. *)
Section Remap.

Variable setNested : KeyType → ValueType → HashMap → result HashMap.

Fixpoint remapChain (c : chain) (newTable : HashMap) : result HashMap :=
  match c with
  | [] => Ok newTable
  | e :: rest =>
      do t <- setNested (key e) (value e) newTable;
      remapChain rest t
  end.

Fixpoint remapSlots (i : nat) (s : list chain) (newTable : HashMap)
  : result HashMap :=
  match i with
  | O => Ok newTable
  | S i' =>
      do t <- remapChain (getUnchecked s (Z.of_nat i')) newTable;
      remapSlots i' s t
  end.

Definition remapTableWith (newNumberOfSlots : Z) (m : HashMap) : result HashMap :=
  do t <- remapSlots (length (slots m)) (slots m) (newHashMap newNumberOfSlots);
  Ok (fst (swapWith m t)).

End Remap.

(** The state of [set] after linking a new entry in front of the chain
    and incrementing the counter, before the growth test. *)
Definition linkNewEntry (hashIndex : Z) (k : KeyType) (v : ValueType) (m : HashMap)
  : HashMap :=
  mkHashMap
    (slotsSet (slots m) hashIndex
       (mkEntry k v :: getUnchecked (slots m) hashIndex))
    (totalNumItems m + 1).

(** [set]; [fuel] bounds the nesting of [set] inside [remapTable] inside
    [set].  The increment of the counter, the product [getNumSlots() * 3]
    of the growth test and the doubled slot count [getNumSlots() * 2] are
    [int] computations. *)
Fixpoint set (fuel : nat) (k : KeyType) (v : ValueType) (m : HashMap)
  : result HashMap :=
  match fuel with
  | O => OutOfFuel
  | S fuel' =>
      do hashIndex <- generateHashFor k m;
      let firstEntry := getUnchecked (slots m) hashIndex in
      match chainReplace k v firstEntry with
      | Some c => Ok (mkHashMap (slotsSet (slots m) hashIndex c) (totalNumItems m))
      | None =>
          do newCount <- int_of (totalNumItems m + 1);
          let m1 := linkNewEntry hashIndex k v m in
          do tripled <- int_of (getNumSlots m1 * 3);
          if totalNumItems m1 >? tripled `quot` 2
          then do doubled <- int_of (getNumSlots m1 * 2);
               remapTableWith (set fuel') doubled m1
          else Ok m1
      end
  end.

Definition remapTable (fuel : nat) (newNumberOfSlots : Z) (m : HashMap)
  : result HashMap :=
  remapTableWith (set fuel) newNumberOfSlots m.

(** *** Iterator *)

(** [KeyType()], the default-constructed key. *)
Variable defaultKey : KeyType.

(** [HashMap::Iterator]: [entry] is the chain from the current entry on
    (empty for the null pointer), [index] the next slot to visit.  The map
    it iterates is passed to [next]. *)
Record Iterator : Type := mkIterator { entry : chain; index : Z }.

(** [Iterator (hashMapToIterate)]: [entry (0), index (0)]. *)
Definition newIterator : Iterator := mkIterator [] 0.

(** The [while (entry == nullptr)] loop of [next]; [rest] is the slot
    array from [index] on, empty exactly when [index >= getNumSlots()]. *)
Fixpoint nextSlot (rest : list chain) (index : Z) : bool * Iterator :=
  match rest with
  | [] => (false, mkIterator [] index)
  | c :: rest' =>
      match c with
      | [] => nextSlot rest' (index + 1)
      | _ :: _ => (true, mkIterator c (index + 1))
      end
  end.

(** [Iterator::next]: the result and the iterator after the call. *)
Definition next (m : HashMap) (it : Iterator) : bool * Iterator :=
  let entry1 := match entry it with [] => [] | _ :: nextEntry => nextEntry end in
  match entry1 with
  | _ :: _ => (true, mkIterator entry1 (index it))
  | [] => nextSlot (drop (Z.to_nat (index it)) (slots m)) (index it)
  end.

Definition getKey (it : Iterator) : KeyType :=
  match entry it with e :: _ => key e | [] => defaultKey end.

Definition getValue (it : Iterator) : ValueType :=
  match entry it with e :: _ => value e | [] => defaultValue end.

(** The loop [while (i.next()) use (i.getKey(), i.getValue())], cut off
    after [fuel] calls of [next]: the pairs it sees, in order. *)
Fixpoint iterate (fuel : nat) (m : HashMap) (it : Iterator)
  : list (KeyType * ValueType) :=
  match fuel with
  | O => []
  | S fuel' =>
      let '(more, it') := next m it in
      if more then (getKey it', getValue it') :: iterate fuel' m it' else []
  end.

(** ** Abstract view and invariants *)

(** All entries of the table, slot by slot. *)
Definition entries (m : HashMap) : list HashEntry := mjoin (slots m).

(** The chain a key hashes to, and the entry found there. *)
Definition bucketOf (k : KeyType) (m : HashMap) : chain :=
  getUnchecked (slots m) (generateHash k (getNumSlots m)).

Definition find (k : KeyType) (m : HashMap) : option ValueType :=
  chainFind k (bucketOf k m).

(** The keys on which the hash function honours its contract. *)
Variable validKey : KeyType → Prop.

Definition hashContract : Prop :=
  ∀ k n, validKey k → 0 < n → 0 <= generateHash k n < n.

(** The three invariants of the data model. *)
Definition entriesInOwnBucket (m : HashMap) : Prop :=
  ∀ i c e, slots m !! i = Some c → e ∈ c →
    generateHash (key e) (getNumSlots m) = Z.of_nat i.

Definition keysUnique (m : HashMap) : Prop :=
  NoDup (key <$> entries m).

Definition countIsChainSum (m : HashMap) : Prop :=
  totalNumItems m = Z.of_nat (sum_list_with length (slots m)).

Definition keysValid (m : HashMap) : Prop :=
  ∀ e, e ∈ entries m → validKey (key e).

(** A well-formed table: it has slots, holds keys the hash function is
    defined on, and satisfies the three invariants. *)
Definition wellFormed (m : HashMap) : Prop :=
  0 < getNumSlots m ∧ keysValid m ∧
  entriesInOwnBucket m ∧ keysUnique m ∧ countIsChainSum m.

(** The bounds under which a [set] of a new key, or a rebuild of the table
    with [extra] more items, stays inside the [int] range: three times the
    slot count and four times the item count are representable (a
    rebuilt table has less than four thirds as many slots as items). *)
Definition intFits (m : HashMap) (extra : Z) : Prop :=
  3 * getNumSlots m <= INT_MAX ∧ 4 * (totalNumItems m + extra) <= INT_MAX.

(** The growth policy keeps the load at or below one and a half. *)
Definition loadBounded (m : HashMap) : Prop :=
  totalNumItems m <= (getNumSlots m * 3) `quot` 2.

(** *** Definitions used in the proofs *)

(** Each chain has distinct keys, all valid and all hashing to its slot. *)
Definition chainsOk (m : HashMap) : Prop :=
  ∀ i c, slots m !! i = Some c →
    NoDup (key <$> c) ∧
    ∀ e, e ∈ c → validKey (key e) ∧
                 generateHash (key e) (getNumSlots m) = Z.of_nat i.

(** The invariants stated chain by chain; equivalent to [wellFormed]. *)
Definition wf (m : HashMap) : Prop :=
  0 < getNumSlots m ∧ chainsOk m ∧ countIsChainSum m.

(** What every reachable table satisfies: the invariants, the load bound
    of the growth policy, and a slot count whose triple is an [int]. *)
Definition sound (m : HashMap) : Prop :=
  wf m ∧ loadBounded m ∧ 3 * getNumSlots m <= INT_MAX.

(** The table [set] leaves behind before its growth test. *)
Definition setCore (k : KeyType) (v : ValueType) (m : HashMap) : HashMap :=
  let h := generateHash k (getNumSlots m) in
  match chainReplace k v (getUnchecked (slots m) h) with
  | Some c => mkHashMap (slotsSet (slots m) h c) (totalNumItems m)
  | None => linkNewEntry h k v m
  end.

(** The growth test of [set], on the table before the call. *)
Definition grows (k : KeyType) (m : HashMap) : bool :=
  bool_decide (find k m = None) &&
  (totalNumItems m + 1 >? (getNumSlots m * 3) `quot` 2).

(** The order in which [remapTable] visits the entries. *)
Definition remapOrder (m : HashMap) : list HashEntry := mjoin (reverse (slots m)).

(** The entries an iterator has still to visit. *)
Definition remaining (m : HashMap) (it : Iterator) : list HashEntry :=
  tail (entry it) ++ mjoin (drop (Z.to_nat (index it)) (slots m)).

(** *** Runs of operations *)

(** The calls [set (k1, v1); ...; set (kn, vn)], in this order. *)
Fixpoint setAll (fuel : nat) (calls : list (KeyType * ValueType)) (m : HashMap)
  : result HashMap :=
  match calls with
  | [] => Ok m
  | (k, v) :: rest => do m' <- set fuel k v m; setAll fuel rest m'
  end.

(** The value of the last call of the sequence whose key is [k]. *)
Fixpoint lastSet (k : KeyType) (calls : list (KeyType * ValueType))
  : option ValueType :=
  match calls with
  | [] => None
  | (k', v) :: rest =>
      match lastSet k rest with
      | Some w => Some w
      | None => if decide (k' = k) then Some v else None
      end
  end.

(** The number of distinct keys of the sequence. *)
Definition distinctKeys (calls : list (KeyType * ValueType)) : nat :=
  length (remove_dups (calls.*1)).

(** Two maps of the same type, and the public operations on them;
    [OpSwapWith] is [A.swapWith (B)]. *)
Inductive which : Type := MapA | MapB.

Inductive operation : Type :=
| OpSet (w : which) (k : KeyType) (v : ValueType)
| OpRemove (w : which) (k : KeyType)
| OpRemoveValue (w : which) (v : ValueType)
| OpClear (w : which)
| OpRemapTable (w : which) (newNumberOfSlots : Z)
| OpSwapWith.

Definition onMap (w : which) (f : HashMap → result HashMap)
  (st : HashMap * HashMap) : result (HashMap * HashMap) :=
  match w with
  | MapA => do a <- f st.1; Ok (a, st.2)
  | MapB => do b <- f st.2; Ok (st.1, b)
  end.

Definition runOp (fuel : nat) (op : operation) (st : HashMap * HashMap)
  : result (HashMap * HashMap) :=
  match op with
  | OpSet w k v => onMap w (set fuel k v) st
  | OpRemove w k => onMap w (remove k) st
  | OpRemoveValue w v => onMap w (λ m, Ok (removeValue v m)) st
  | OpClear w => onMap w (λ m, Ok (clear m)) st
  | OpRemapTable w n => onMap w (remapTable fuel n) st
  | OpSwapWith => Ok (swapWith st.1 st.2)
  end.

Fixpoint runOps (fuel : nat) (ops : list operation) (st : HashMap * HashMap)
  : result (HashMap * HashMap) :=
  match ops with
  | [] => Ok st
  | op :: rest => do st' <- runOp fuel op st; runOps fuel rest st'
  end.

(** The arguments the operations are defined on: keys the hash function
    accepts, and for [remapTable] a positive slot count whose triple, which
    the growth test of the nested [set] computes, is an [int]. *)
Definition validOp (op : operation) : Prop :=
  match op with
  | OpSet _ k _ | OpRemove _ k => validKey k
  | OpRemapTable _ n => 0 < n ∧ 3 * n <= INT_MAX
  | _ => True
  end.

(** ** Chains *)

Lemma entry_eta (e : HashEntry) : mkEntry (key e) (value e) = e.
Proof. by destruct e. Qed.

Lemma chainFind_None k c : chainFind k c = None ↔ k ∉ key <$> c.
Proof.
  induction c as [|e c IH]; csimpl.
  - split; [intros _; apply not_elem_of_nil | done].
  - rewrite not_elem_of_cons. case_decide as Hk.
    + split; [done | intros [Hne _]; congruence].
    + rewrite IH. split; [intros ?; split; congruence | by intros [_ ?]].
Qed.

Lemma chainFind_Some_elem k v c : chainFind k c = Some v → mkEntry k v ∈ c.
Proof.
  induction c as [|e c IH]; simpl; [done|].
  case_decide as Hk.
  - intros [= <-]. subst k. rewrite entry_eta. apply list_elem_of_here.
  - intros. apply list_elem_of_further. auto.
Qed.

Lemma chainFind_elem_NoDup k v c :
  NoDup (key <$> c) → mkEntry k v ∈ c → chainFind k c = Some v.
Proof.
  induction c as [|e c IH]; csimpl.
  - intros _ H. by apply elem_of_nil in H.
  - intros [Hnotin Hnd]%NoDup_cons [<-|Hin]%elem_of_cons; simpl.
    + by rewrite decide_True.
    + rewrite decide_False; [auto|].
      intros Heq. apply Hnotin. rewrite Heq.
      by apply (list_elem_of_fmap_2 key) in Hin.
Qed.

Lemma chainReplace_None k v c : chainReplace k v c = None ↔ chainFind k c = None.
Proof.
  induction c as [|e c IH]; simpl; [done|].
  case_decide; [done|]. destruct (chainReplace k v c); [|done].
  split; [done|]. by intros ?%IH.
Qed.

Lemma chainReplace_keys k v c c' :
  chainReplace k v c = Some c' → key <$> c' = key <$> c.
Proof.
  revert c'. induction c as [|e c IH]; simpl; intros c'; [done|].
  case_decide.
  - by intros [= <-].
  - destruct (chainReplace k v c) as [r|]; [|done].
    intros [= <-]. csimpl. f_equal. by apply IH.
Qed.

Lemma chainReplace_find k v c c' k' :
  chainReplace k v c = Some c' →
  chainFind k' c' = if decide (k' = k) then Some v else chainFind k' c.
Proof.
  revert c'. induction c as [|e c IH]; simpl; intros c'; [done|].
  destruct (decide (key e = k)) as [Hk|Hk].
  - intros [= <-]. simpl. subst k. repeat case_decide; congruence.
  - destruct (chainReplace k v c) as [r|]; [|done].
    intros [= <-]. simpl. rewrite (IH r eq_refl).
    repeat case_decide; congruence.
Qed.

Lemma chainRemove_filter k c n :
  chainRemove k c n =
  (filter (λ e, key e ≠ k) c,
   n - Z.of_nat (length c) + Z.of_nat (length (filter (λ e, key e ≠ k) c))).
Proof.
  revert n. induction c as [|e c IH]; intros n; cbn [chainRemove].
  - f_equal. simpl. lia.
  - destruct (decide (key e = k)) as [Hk|Hk].
    + rewrite IH, (filter_cons_False (λ e, key e ≠ k)) by (by intros ?).
      f_equal. simpl length. lia.
    + rewrite IH, (filter_cons_True (λ e, key e ≠ k)) by done.
      f_equal. simpl length. lia.
Qed.

Lemma chainRemoveValue_filter v c n :
  chainRemoveValue v c n =
  (filter (λ e, value e ≠ v) c,
   n - Z.of_nat (length c) + Z.of_nat (length (filter (λ e, value e ≠ v) c))).
Proof.
  revert n. induction c as [|e c IH]; intros n; cbn [chainRemoveValue].
  - f_equal. simpl. lia.
  - destruct (decide (value e = v)) as [Hk|Hk].
    + rewrite IH, (filter_cons_False (λ e, value e ≠ v)) by (by intros ?).
      f_equal. simpl length. lia.
    + rewrite IH, (filter_cons_True (λ e, value e ≠ v)) by done.
      f_equal. simpl length. lia.
Qed.

Lemma chainFind_filter_key k k' c :
  chainFind k' (filter (λ e, key e ≠ k) c) =
  if decide (k' = k) then None else chainFind k' c.
Proof.
  induction c as [|e c IH]; simpl.
  - by case_decide.
  - destruct (decide (key e = k)) as [He|He].
    + rewrite (filter_cons_False (λ e, key e ≠ k)) by (by intros ?).
      rewrite IH. repeat case_decide; congruence.
    + rewrite (filter_cons_True (λ e, key e ≠ k)) by done. simpl. rewrite IH.
      repeat case_decide; congruence.
Qed.

(** ** The slot array *)

Lemma getUnchecked_lookup (s : list chain) (i : Z) :
  0 <= i < Z.of_nat (length s) → s !! Z.to_nat i = Some (getUnchecked s i).
Proof.
  intros Hi. unfold getUnchecked.
  destruct (lookup_lt_is_Some_2 s (Z.to_nat i)) as [c ->]; [lia | done].
Qed.

Lemma getUnchecked_nat (s : list chain) (i : nat) c :
  s !! i = Some c → getUnchecked s (Z.of_nat i) = c.
Proof. unfold getUnchecked. rewrite Nat2Z.id. by intros ->. Qed.

Lemma getUnchecked_slotsSet (s : list chain) (i j : Z) c :
  0 <= i < Z.of_nat (length s) →
  getUnchecked (slotsSet s i c) j =
  if decide (Z.to_nat i = Z.to_nat j) then c else getUnchecked s j.
Proof.
  intros Hi. unfold getUnchecked, slotsSet. case_decide as Hij.
  - rewrite <- Hij, list_lookup_insert_eq by lia. done.
  - by rewrite list_lookup_insert_ne.
Qed.

Lemma length_slotsSet (s : list chain) i c : length (slotsSet s i c) = length s.
Proof. apply length_insert. Qed.

Lemma length_join (s : list chain) : length (mjoin s) = sum_list_with length s.
Proof.
  induction s as [|c s IH]; [done|].
  change (mjoin (c :: s)) with (c ++ mjoin s).
  rewrite length_app, IH. done.
Qed.

Lemma sum_insert (s : list chain) (i : nat) c c' :
  s !! i = Some c →
  (sum_list_with length (<[i:=c']> s) + length c =
   sum_list_with length s + length c')%nat.
Proof.
  revert i. induction s as [|d s IH]; intros [|i]; simpl; try done.
  - intros [= ->]. lia.
  - intros H. specialize (IH i H). lia.
Qed.

Lemma elem_of_entries (m : HashMap) e :
  e ∈ entries m ↔ ∃ i c, slots m !! i = Some c ∧ e ∈ c.
Proof.
  unfold entries. rewrite list_elem_of_join. split.
  - intros (c & He & [i Hi]%list_elem_of_lookup_1). eauto.
  - intros (i & c & Hi & He). exists c. split; [done|].
    by apply list_elem_of_lookup_2 in Hi.
Qed.

Lemma getNumSlots_newHashMap n : 0 <= n → getNumSlots (newHashMap n) = n.
Proof.
  intros. unfold getNumSlots, newHashMap, insertMultipleNull. simpl.
  rewrite length_replicate. lia.
Qed.

Lemma lookup_newHashMap n i c : slots (newHashMap n) !! i = Some c → c = [].
Proof. unfold newHashMap, insertMultipleNull. simpl. by intros [-> _]%lookup_replicate. Qed.

Lemma entries_newHashMap n : entries (newHashMap n) = [].
Proof.
  unfold entries, newHashMap, insertMultipleNull. apply join_nil. simpl.
  apply Forall_forall.
  by intros c [-> _]%elem_of_replicate.
Qed.

Lemma sum_replicate_nil (n : nat) :
  sum_list_with length (replicate n ([] : chain)) = O.
Proof. induction n; simpl; auto. Qed.

(** ** The invariants, chain by chain *)

Lemma NoDup_join_buckets (h : KeyType → Z) (s : list chain) (off : nat) :
  (∀ i c, s !! i = Some c →
     NoDup (key <$> c) ∧ ∀ e, e ∈ c → h (key e) = Z.of_nat (off + i)) →
  NoDup (key <$> mjoin s).
Proof.
  revert off. induction s as [|c s IH]; intros off Hs; [constructor|].
  change (mjoin (c :: s)) with (c ++ mjoin s).
  rewrite fmap_app. apply NoDup_app. split_and!.
  - apply (Hs O c eq_refl).
  - intros k [e [-> He]]%list_elem_of_fmap_1 [e' [Hk He']]%list_elem_of_fmap_1.
    apply list_elem_of_join in He' as (c' & He' & [j Hj]%list_elem_of_lookup_1).
    pose proof (proj2 (Hs O c eq_refl) e He) as H0.
    pose proof (proj2 (Hs (S j) c' Hj) e' He') as H1.
    rewrite Hk in H0. lia.
  - apply (IH (S off)). intros i c' Hi.
    destruct (Hs (S i) c' Hi) as [Hnd Hh]. split; [done|].
    intros e He. rewrite (Hh e He). f_equal. lia.
Qed.

Lemma NoDup_join_chain (s : list chain) (i : nat) c :
  NoDup (key <$> mjoin s) → s !! i = Some c → NoDup (key <$> c).
Proof.
  intros Hnd Hi. rewrite <- (take_drop_middle s i c Hi) in Hnd.
  rewrite join_app in Hnd.
  change (mjoin (c :: drop (S i) s)) with (c ++ mjoin (drop (S i) s)) in Hnd.
  rewrite !fmap_app in Hnd.
  apply NoDup_app in Hnd as (_ & _ & Hnd).
  by apply NoDup_app in Hnd as (Hnd & _).
Qed.

Lemma wf_wellFormed (m : HashMap) : wf m ↔ wellFormed m.
Proof.
  split.
  - intros (Hn & Hc & Hs). split_and!; try done.
    + intros e (i & c & Hi & He)%elem_of_entries. by apply (Hc i c Hi).
    + intros i c e Hi He. by apply (Hc i c Hi).
    + apply (NoDup_join_buckets (λ k, generateHash k (getNumSlots m)) _ O).
      intros i c Hi. destruct (Hc i c Hi) as [Hnd Hh]. split; [done|].
      intros e He. by apply Hh.
  - intros (Hn & Hv & Hb & Hu & Hs). split_and!; try done.
    intros i c Hi. split.
    + by apply (NoDup_join_chain (slots m) i).
    + intros e He. split.
      * apply Hv. apply elem_of_entries. eauto.
      * by apply (Hb i c).
Qed.

(** ** Lookups under the hash contract *)

Hypothesis hash_ok : hashContract.

Lemma generateHashFor_Ok k m :
  validKey k → 0 < getNumSlots m →
  generateHashFor k m = Ok (generateHash k (getNumSlots m)).
Proof.
  intros Hk Hn. unfold generateHashFor, isPositiveAndBelow.
  destruct (hash_ok k _ Hk Hn) as [H0 H1].
  apply Z.leb_le in H0. apply Z.ltb_lt in H1. by rewrite H0, H1.
Qed.

Lemma find_elem m k v :
  chainsOk m → find k m = Some v ↔ mkEntry k v ∈ entries m.
Proof.
  intros Hc. split.
  - unfold find, bucketOf, getUnchecked.
    destruct (slots m !! Z.to_nat (generateHash k (getNumSlots m)))
      as [c|] eqn:Hi; simpl; [|done].
    intros H%chainFind_Some_elem. apply elem_of_entries. eauto.
  - intros (i & c & Hi & He)%elem_of_entries.
    destruct (Hc i c Hi) as [Hnd Hh]. destruct (Hh _ He) as [_ Hhash].
    simpl in Hhash. unfold find, bucketOf. rewrite Hhash.
    rewrite (getUnchecked_nat _ _ _ Hi). by apply chainFind_elem_NoDup.
Qed.

Lemma find_newHashMap n k : find k (newHashMap n) = None.
Proof.
  unfold find, bucketOf, getUnchecked.
  destruct (slots (newHashMap n) !! _) as [c|] eqn:Hi; [|done].
  by apply lookup_newHashMap in Hi as ->.
Qed.

Lemma wf_newHashMap n : 0 < n → wf (newHashMap n).
Proof.
  intros Hn. split_and!.
  - rewrite getNumSlots_newHashMap; lia.
  - intros i c ->%lookup_newHashMap. split; [constructor|].
    intros e He. by apply elem_of_nil in He.
  - unfold countIsChainSum, newHashMap, insertMultipleNull. simpl.
    by rewrite sum_replicate_nil.
Qed.

Lemma loadBounded_newHashMap n : 0 < n → loadBounded (newHashMap n).
Proof.
  intros Hn. unfold loadBounded. rewrite getNumSlots_newHashMap by lia.
  simpl. apply Z.quot_pos; lia.
Qed.

Lemma operator_subscript_find k m :
  validKey k → 0 < getNumSlots m →
  operator_subscript k m = Ok (default defaultValue (find k m)).
Proof. intros Hk Hn. unfold operator_subscript. by rewrite generateHashFor_Ok. Qed.

Lemma contains_find k m :
  validKey k → 0 < getNumSlots m →
  contains k m = Ok (bool_decide (is_Some (find k m))).
Proof. intros Hk Hn. unfold contains. by rewrite generateHashFor_Ok. Qed.

(** Replacing the chain of one slot by a chain of keys of that slot. *)
Lemma bucket_update m h c' tot :
  wf m → 0 <= h < getNumSlots m →
  NoDup (key <$> c') →
  (∀ e, e ∈ c' → validKey (key e) ∧ generateHash (key e) (getNumSlots m) = h) →
  tot = totalNumItems m - Z.of_nat (length (getUnchecked (slots m) h))
        + Z.of_nat (length c') →
  let m' := mkHashMap (slotsSet (slots m) h c') tot in
  wf m' ∧ getNumSlots m' = getNumSlots m ∧
  ∀ k', find k' m' =
        if decide (Z.to_nat (generateHash k' (getNumSlots m)) = Z.to_nat h)
        then chainFind k' c' else find k' m.
Proof.
  intros (Hn & Hc & Hs) Hh Hnd Hc' ->. simpl.
  assert (Hlen : getNumSlots (mkHashMap (slotsSet (slots m) h c')
             (totalNumItems m - Z.of_nat (length (getUnchecked (slots m) h))
              + Z.of_nat (length c'))) = getNumSlots m).
  { unfold getNumSlots. simpl. by rewrite length_slotsSet. }
  pose proof (getUnchecked_lookup (slots m) h Hh) as Hlook.
  split; [|split; [done|]].
  - split; [by rewrite Hlen|]. split.
    + intros i c. rewrite Hlen. simpl. unfold slotsSet.
      destruct (decide (Z.to_nat h = i)) as [<-|Hne].
      * rewrite list_lookup_insert_eq by (unfold getNumSlots in Hh; lia).
        intros [= <-]. split; [done|]. intros e He.
        destruct (Hc' e He) as [? ->]. split; [done|lia].
      * rewrite list_lookup_insert_ne by done. apply Hc.
    + unfold countIsChainSum in *. simpl. unfold slotsSet.
      pose proof (sum_insert (slots m) _ _ c' Hlook) as Hsum. lia.
  - intros k'. unfold find, bucketOf. rewrite Hlen. simpl.
    rewrite getUnchecked_slotsSet by done.
    case_decide as Hi1; case_decide as Hi2; try done; congruence.
Qed.

Lemma int_of_Ok z : is_int z → int_of z = Ok z.
Proof.
  intros [H0 H1]. unfold int_of.
  apply Z.leb_le in H0. apply Z.leb_le in H1. by rewrite H0, H1.
Qed.

Lemma set_S fuel k v m :
  validKey k → 0 < getNumSlots m →
  (find k m = None →
   is_int (totalNumItems m + 1) ∧ 3 * getNumSlots m <= INT_MAX) →
  set (S fuel) k v m =
  if grows k m
  then remapTableWith (set fuel) (getNumSlots m * 2) (setCore k v m)
  else Ok (setCore k v m).
Proof.
  intros Hk Hn Hint. cbn [set]. rewrite generateHashFor_Ok by done. cbn [bind].
  unfold setCore, grows.
  destruct (chainReplace k v _) as [c|] eqn:Hr.
  - rewrite bool_decide_eq_false_2; [done|].
    unfold find, bucketOf.
    intros Hf. apply (chainReplace_None k v) in Hf. by rewrite Hr in Hf.
  - apply chainReplace_None in Hr. destruct (Hint Hr) as [Hcount Hslots].
    rewrite bool_decide_eq_true_2 by done. cbn [andb].
    assert (Hlen : getNumSlots (linkNewEntry (generateHash k (getNumSlots m)) k v m)
                   = getNumSlots m).
    { unfold getNumSlots, linkNewEntry. simpl. by rewrite length_slotsSet. }
    rewrite Hlen, !int_of_Ok by (done || unfold is_int, INT_MIN, INT_MAX in *; lia).
    done.
Qed.

Lemma setCore_spec k v m :
  wf m → validKey k →
  wf (setCore k v m) ∧
  getNumSlots (setCore k v m) = getNumSlots m ∧
  (∀ k', find k' (setCore k v m) = if decide (k' = k) then Some v else find k' m) ∧
  totalNumItems (setCore k v m) =
    totalNumItems m + (if find k m is Some _ then 0 else 1).
Proof.
  intros Hwf Hk. pose proof Hwf as (Hn & Hc & Hs).
  pose proof (hash_ok k _ Hk Hn) as Hh.
  pose proof (getUnchecked_lookup (slots m) _ Hh) as Hlook.
  destruct (Hc _ _ Hlook) as [Hnd0 Hc0].
  unfold setCore. cbn zeta.
  destruct (chainReplace k v _) as [c|] eqn:Hr.
  - pose proof (chainReplace_keys _ _ _ _ Hr) as Hkeys.
    assert (Hl : length c = length (getUnchecked (slots m) (generateHash k (getNumSlots m)))).
    { by rewrite <- (length_fmap key c), Hkeys, length_fmap. }
    destruct (bucket_update m (generateHash k (getNumSlots m)) c (totalNumItems m))
      as (Hwf' & Hn' & Hf'); try done.
    { by rewrite Hkeys. }
    { intros e He. apply (list_elem_of_fmap_2 key) in He. rewrite Hkeys in He.
      apply list_elem_of_fmap_1 in He as (e0 & -> & He0).
      destruct (Hc0 e0 He0) as [? Hh0]. split; [done|]. rewrite Hh0. lia. }
    { lia. }
    split; [done|]. split; [done|]. split.
    + intros k'. rewrite Hf'. rewrite (chainReplace_find _ _ _ _ k' Hr).
      unfold find, bucketOf, getUnchecked.
      case_decide as Hi; case_decide as Hkk; try done.
      * by rewrite Hi.
      * subst k'. done.
    + unfold find, bucketOf.
      destruct (chainFind k _) eqn:Hf; [simpl; lia|].
      apply (chainReplace_None k v) in Hf. congruence.
  - pose proof Hr as Hnone. apply chainReplace_None in Hnone.
    unfold linkNewEntry.
    destruct (bucket_update m (generateHash k (getNumSlots m))
                (mkEntry k v :: getUnchecked (slots m) (generateHash k (getNumSlots m)))
                (totalNumItems m + 1))
      as (Hwf' & Hn' & Hf'); try done.
    { csimpl. apply NoDup_cons. split; [|done]. by apply chainFind_None. }
    { intros e [->|He]%elem_of_cons; [done|].
      destruct (Hc0 e He) as [? Hh0]. split; [done|]. rewrite Hh0. lia. }
    { simpl length. lia. }
    split; [done|]. split; [done|]. split.
    + intros k'. rewrite Hf'. simpl.
      unfold find, bucketOf, getUnchecked.
      case_decide as Hi; repeat case_decide; try done; congruence.
    + unfold find, bucketOf. by rewrite Hnone.
Qed.

(** ** Rebuilding a table *)

Lemma remapOrder_perm m : remapOrder m ≡ₚ entries m.
Proof. unfold remapOrder, entries. by rewrite reverse_Permutation. Qed.

Lemma hashMap_eta (t : HashMap) : mkHashMap (slots t) (totalNumItems t) = t.
Proof. by destruct t. Qed.

Lemma remapChain_app setf a b t :
  remapChain setf (a ++ b) t = do t1 <- remapChain setf a t; remapChain setf b t1.
Proof.
  revert t. induction a as [|e a IH]; intros t; simpl; [done|].
  destruct (setf (key e) (value e) t); simpl; auto.
Qed.

Lemma remapSlots_chain setf (i : nat) (s : list chain) t :
  (i ≤ length s)%nat →
  remapSlots setf i s t = remapChain setf (mjoin (reverse (take i s))) t.
Proof.
  revert t. induction i as [|i IH]; intros t Hi; [done|].
  destruct (lookup_lt_is_Some_2 s i) as [c Hc]; [lia|].
  rewrite (take_S_r s i c Hc), reverse_snoc.
  change (mjoin (c :: reverse (take i s))) with (c ++ mjoin (reverse (take i s))).
  rewrite remapChain_app. cbn [remapSlots].
  rewrite (getUnchecked_nat s i c Hc).
  destruct (remapChain setf c t); simpl; auto. apply IH. lia.
Qed.

Lemma remapTableWith_chain setf n m :
  remapTableWith setf n m = remapChain setf (remapOrder m) (newHashMap n).
Proof.
  unfold remapTableWith, remapOrder. rewrite remapSlots_chain by done.
  rewrite firstn_all.
  destruct (remapChain setf _ _) as [t| | |]; simpl; [|done..].
  by rewrite hashMap_eta.
Qed.

Section Loop.

Variable setf : KeyType → ValueType → HashMap → result HashMap.
Variable P : nat → HashMap → Prop.

Hypothesis step : ∀ r t k v,
  P (S r) t → validKey k → find k t = None →
  ∃ t', setf k v t = Ok t' ∧ P r t' ∧
        (∀ k', find k' t' = if decide (k' = k) then Some v else find k' t) ∧
        totalNumItems t' = totalNumItems t + 1.

Lemma remapChain_loop es t :
  P (length es) t → NoDup (key <$> es) →
  (∀ e, e ∈ es → validKey (key e) ∧ find (key e) t = None) →
  ∃ t', remapChain setf es t = Ok t' ∧ P O t' ∧
        (∀ k', find k' t' = if chainFind k' es is Some v then Some v else find k' t) ∧
        totalNumItems t' = totalNumItems t + Z.of_nat (length es).
Proof.
  revert t. induction es as [|e es IH]; intros t HP Hnd Hes.
  - exists t. simpl. split_and!; try done. lia.
  - csimpl in Hnd. apply NoDup_cons in Hnd as [Hnotin Hnd].
    destruct (Hes e (list_elem_of_here _ _)) as [Hv Hf].
    destruct (step _ t (key e) (value e) HP Hv Hf) as (t1 & Hs1 & HP1 & Hf1 & Htot1).
    destruct (IH t1 HP1 Hnd) as (t' & Hs' & HP' & Hf' & Htot').
    { intros e' He'. destruct (Hes e' (list_elem_of_further _ _ _ He')) as [Hv' Hf0].
      split; [done|]. rewrite Hf1, decide_False; [done|].
      intros Heq. apply Hnotin. rewrite <- Heq. by apply list_elem_of_fmap_2. }
    exists t'. simpl. rewrite Hs1. simpl. split_and!; try done.
    + intros k'. rewrite Hf', Hf1.
      destruct (decide (key e = k')) as [<-|Hne].
      * apply chainFind_None in Hnotin. rewrite Hnotin. by rewrite decide_True.
      * rewrite decide_False by congruence. done.
    + rewrite Htot', Htot1. lia.
Qed.

Lemma remapTableWith_loop n m :
  wf m → P (length (entries m)) (newHashMap n) →
  ∃ t', remapTableWith setf n m = Ok t' ∧ P O t' ∧
        (∀ k', find k' t' = find k' m) ∧
        totalNumItems t' = totalNumItems m.
Proof.
  intros Hwf HP. pose proof Hwf as (Hn & Hc & Hs).
  pose proof (proj1 (wf_wellFormed m) Hwf) as (_ & Hv & _ & Hu & _).
  pose proof (remapOrder_perm m) as Hperm.
  destruct (remapChain_loop (remapOrder m) (newHashMap n)) as (t' & Hr & HP' & Hf & Htot).
  - by rewrite Hperm.
  - by rewrite Hperm.
  - intros e He. rewrite Hperm in He. split; [by apply Hv | apply find_newHashMap].
  - exists t'. rewrite remapTableWith_chain. split_and!; try done.
    + intros k'. rewrite Hf, find_newHashMap. apply option_eq. intros v.
      rewrite (find_elem m k' v Hc), <- Hperm.
      destruct (chainFind k' (remapOrder m)) as [w|] eqn:Hcf.
      * split.
        -- intros [= ->]. by apply chainFind_Some_elem.
        -- intros Hin. rewrite <- Hcf. apply chainFind_elem_NoDup; [|done].
           by rewrite Hperm.
      * split; [done|]. intros Hin.
        apply chainFind_None in Hcf. exfalso. apply Hcf.
        by apply (list_elem_of_fmap_2 key) in Hin.
    + rewrite Htot, Hperm. simpl. unfold entries. rewrite length_join.
      unfold countIsChainSum in Hs. lia.
Qed.

End Loop.

(** ** [set] and [remapTable] *)

Lemma set_nogrow fuel k v m :
  validKey k → 0 < getNumSlots m →
  is_int (totalNumItems m + 1) → 3 * getNumSlots m <= INT_MAX →
  grows k m = false →
  set (S fuel) k v m = Ok (setCore k v m).
Proof. intros Hk Hn Hc Hs Hg. by rewrite set_S, Hg. Qed.

Lemma wf_count_nonneg m : wf m → 0 <= totalNumItems m.
Proof. intros (_ & _ & Hs). unfold countIsChainSum in Hs. lia. Qed.

Lemma grows_find k m : grows k m = true → find k m = None.
Proof. unfold grows. intros [H _]%andb_prop. by apply bool_decide_eq_true in H. Qed.

(** A [set] on a table within the load bound: the rebuild it may start
    never grows again, so two levels of fuel are enough. *)
Lemma set_bounded fuel k v m :
  wf m → loadBounded m → validKey k → (2 ≤ fuel)%nat → intFits m 1 →
  ∃ m', set fuel k v m = Ok m' ∧ wf m' ∧ loadBounded m' ∧
        3 * getNumSlots m' <= INT_MAX ∧
        getNumSlots m' = (if grows k m then getNumSlots m * 2 else getNumSlots m) ∧
        (∀ k', find k' m' = if decide (k' = k) then Some v else find k' m) ∧
        totalNumItems m' = totalNumItems m + (if find k m is Some _ then 0 else 1).
Proof.
  intros Hwf Hload Hk Hfuel [Hfit1 Hfit2]. pose proof Hwf as (Hn & _ & _).
  pose proof (wf_count_nonneg m Hwf) as Hpos.
  destruct fuel as [|[|fuel]]; [lia..|].
  destruct (setCore_spec k v m Hwf Hk) as (Hwf1 & Hn1 & Hf1 & Htot1).
  rewrite set_S by (done || unfold is_int, INT_MIN, INT_MAX in *; lia).
  destruct (grows k m) eqn:Hg.
  - pose proof (grows_find _ _ Hg) as Hnone. rewrite Hnone in Htot1.
    assert (Hsix : 6 * getNumSlots m < 4 * (totalNumItems m + 1)).
    { clear Hfit1 Hfit2. unfold grows in Hg. apply andb_prop in Hg as [_ Hg].
      rewrite Z.gtb_ltb in Hg. apply Z.ltb_lt in Hg.
      Z.quot_rem_to_equations. lia. }
    unfold loadBounded in Hload.
    pose (P := λ (r : nat) (t : HashMap),
            wf t ∧ getNumSlots t = getNumSlots m * 2 ∧
            totalNumItems t + Z.of_nat r <= getNumSlots m * 3).
    destruct (remapTableWith_loop (set (S fuel)) P) with
      (n := getNumSlots m * 2) (m := setCore k v m)
      as (t' & Hr & (Hwf' & Hn' & Hb') & Hf' & Htot'); [|done|..].
    + intros r t k0 v0 (Hwft & Hnt & Hbt) Hk0 Hf0.
      destruct (setCore_spec k0 v0 t Hwft Hk0) as (Hwf2 & Hn2 & Hf2 & Htot2).
      rewrite Hf0 in Htot2.
      pose proof (wf_count_nonneg t Hwft) as Hpost.
      exists (setCore k0 v0 t). split_and!; try done.
      * apply set_nogrow; [done|lia| | |].
        -- unfold is_int, INT_MIN, INT_MAX in *. lia.
        -- unfold INT_MAX in *. lia.
        -- unfold grows. rewrite Hnt.
           apply andb_false_intro2. rewrite Z.gtb_ltb. apply Z.ltb_ge.
           replace (getNumSlots m * 2 * 3) with (getNumSlots m * 3 * 2) by lia.
           rewrite Z.quot_mul by done. lia.
      * split_and!; [done|congruence|lia].
    + split_and!.
      * apply wf_newHashMap. lia.
      * apply getNumSlots_newHashMap. lia.
      * destruct Hwf1 as (_ & _ & Hs1). unfold countIsChainSum in Hs1.
        unfold entries. rewrite length_join. simpl.
        rewrite <- Hs1, Htot1.
        assert ((getNumSlots m * 3) `quot` 2 <= getNumSlots m * 3 - 1); [|lia].
        rewrite Z.quot_div_nonneg by lia. apply Z.div_le_upper_bound; lia.
    + exists t'. split_and!; try done.
      * unfold loadBounded. rewrite Hn'.
        replace (getNumSlots m * 2 * 3) with (getNumSlots m * 3 * 2) by lia.
        rewrite Z.quot_mul by done. lia.
      * rewrite Hn'. lia.
      * intros k'. by rewrite Hf', Hf1.
      * by rewrite Htot', Htot1, Hnone.
  - exists (setCore k v m). split_and!; try done; [|by rewrite Hn1].
    unfold loadBounded. rewrite Hn1, Htot1.
    unfold grows in Hg. apply andb_false_iff in Hg as [Hg|Hg].
    + apply bool_decide_eq_false in Hg. destruct (find k m); [|done].
      unfold loadBounded in Hload. lia.
    + rewrite Z.gtb_ltb in Hg. apply Z.ltb_ge in Hg. destruct (find k m); lia.
Qed.

(** [remapTable] on any well-formed table. *)
Lemma remapTable_spec fuel x m :
  wf m → 0 < x → (2 ≤ fuel)%nat →
  3 * x <= INT_MAX → 4 * totalNumItems m <= INT_MAX →
  ∃ m', remapTable fuel x m = Ok m' ∧ wf m' ∧ loadBounded m' ∧
        x <= getNumSlots m' ∧
        (∀ k', find k' m' = find k' m) ∧
        totalNumItems m' = totalNumItems m ∧
        3 * getNumSlots m' <= INT_MAX.
Proof.
  intros Hwf Hx Hfuel Hx3 Hm4.
  pose (P := λ (r : nat) (t : HashMap),
          wf t ∧ loadBounded t ∧ x <= getNumSlots t ∧
          3 * getNumSlots t <= INT_MAX ∧
          totalNumItems t + Z.of_nat r <= totalNumItems m).
  destruct (remapTableWith_loop (set fuel) P) with (n := x) (m := m)
    as (t' & Hr & (Hwf' & Hl' & Hx' & Hi' & _) & Hf' & Htot'); [|done|..].
  - intros r t k v (Hwft & Hlt & Hxt & Hit & Hbt) Hk Hf.
    destruct (set_bounded fuel k v t Hwft Hlt Hk Hfuel)
      as (t' & Hs & Hwf' & Hl' & Hi' & Hn' & Hf' & Htot').
    { split; [done|lia]. }
    exists t'. rewrite Hf in Htot'. split_and!; try done.
    split_and!; try done; [|lia]. rewrite Hn'. destruct (grows k t); lia.
  - split_and!.
    + by apply wf_newHashMap.
    + by apply loadBounded_newHashMap.
    + rewrite getNumSlots_newHashMap; lia.
    + rewrite getNumSlots_newHashMap; lia.
    + destruct Hwf as (_ & _ & Hs). unfold countIsChainSum in Hs.
      unfold entries. rewrite length_join. simpl. lia.
  - exists t'. by split_and!.
Qed.

Lemma grows_six k m :
  grows k m = true → 6 * getNumSlots m < 4 * (totalNumItems m + 1).
Proof.
  unfold grows. intros [_ Hg]%andb_prop.
  rewrite Z.gtb_ltb in Hg. apply Z.ltb_lt in Hg.
  Z.quot_rem_to_equations. lia.
Qed.

(** [set] on any well-formed table. *)
Lemma set_spec fuel k v m :
  wf m → validKey k → (3 ≤ fuel)%nat → intFits m 1 →
  ∃ m', set fuel k v m = Ok m' ∧ wf m' ∧
        (∀ k', find k' m' = if decide (k' = k) then Some v else find k' m) ∧
        totalNumItems m' = totalNumItems m + (if find k m is Some _ then 0 else 1).
Proof.
  intros Hwf Hk Hfuel [Hfit1 Hfit2]. pose proof Hwf as (Hn & _ & _).
  pose proof (wf_count_nonneg m Hwf) as Hpos.
  destruct fuel as [|fuel]; [lia|].
  destruct (setCore_spec k v m Hwf Hk) as (Hwf1 & Hn1 & Hf1 & Htot1).
  rewrite set_S by (done || unfold is_int, INT_MIN, INT_MAX in *; lia).
  destruct (grows k m) eqn:Hg.
  - pose proof (grows_six _ _ Hg) as Hsix.
    pose proof (grows_find _ _ Hg) as Hnone. rewrite Hnone in Htot1.
    destruct (remapTable_spec fuel (getNumSlots m * 2) (setCore k v m))
      as (m' & Hr & Hwf' & _ & _ & Hf' & Htot' & _); [done|lia|lia|lia|lia|].
    exists m'. split_and!; try done.
    + intros k'. by rewrite Hf', Hf1.
    + by rewrite Htot', Htot1, Hnone.
  - by exists (setCore k v m).
Qed.

(** ** [remove], [removeValue], [clear] *)

Lemma NoDup_keys_filter (P : HashEntry → Prop) `{!∀ e, Decision (P e)} (c : chain) :
  NoDup (key <$> c) → NoDup (key <$> filter P c).
Proof.
  intros Hnd. apply (sublist_NoDup _ (key <$> c)); [done|].
  apply fmap_sublist, sublist_filter.
Qed.

Lemma filter_key_absent k (c : chain) :
  chainFind k c = None → filter (λ e, key e ≠ k) c = c.
Proof.
  induction c as [|e c IH]; simpl; [done|]. case_decide as Hk; [done|].
  intros Hf. rewrite (filter_cons_True (λ e, key e ≠ k)) by done. by rewrite IH.
Qed.

Lemma filter_key_length k (c : chain) :
  NoDup (key <$> c) →
  Z.of_nat (length (filter (λ e, key e ≠ k) c)) =
  Z.of_nat (length c) - (if chainFind k c is Some _ then 1 else 0).
Proof.
  induction c as [|e c IH]; csimpl; [done|].
  intros [Hnotin Hnd]%NoDup_cons. cbn [chainFind]. case_decide as Hk.
  - rewrite (filter_cons_False (λ e, key e ≠ k)) by (by intros ?).
    subst k. apply chainFind_None in Hnotin.
    rewrite (filter_key_absent _ _ Hnotin). lia.
  - rewrite (filter_cons_True (λ e, key e ≠ k)) by done. simpl length.
    specialize (IH Hnd). lia.
Qed.

Lemma remove_unfold k m :
  validKey k → 0 < getNumSlots m →
  remove k m =
  Ok (mkHashMap
        (slotsSet (slots m) (generateHash k (getNumSlots m))
           (filter (λ e, key e ≠ k) (bucketOf k m)))
        (totalNumItems m - Z.of_nat (length (bucketOf k m))
         + Z.of_nat (length (filter (λ e, key e ≠ k) (bucketOf k m))))).
Proof.
  intros Hk Hn. unfold remove. rewrite generateHashFor_Ok by done. cbn [bind].
  by rewrite chainRemove_filter.
Qed.

Lemma remove_spec k m :
  wf m → validKey k →
  ∃ m', remove k m = Ok m' ∧ wf m' ∧ getNumSlots m' = getNumSlots m ∧
        (∀ k', find k' m' = if decide (k' = k) then None else find k' m) ∧
        totalNumItems m' = totalNumItems m - (if find k m is Some _ then 1 else 0).
Proof.
  intros Hwf Hk. pose proof Hwf as (Hn & Hc & Hs).
  pose proof (hash_ok k _ Hk Hn) as Hh.
  pose proof (getUnchecked_lookup (slots m) _ Hh) as Hlook.
  destruct (Hc _ _ Hlook) as [Hnd0 Hc0].
  rewrite remove_unfold by done. eexists. split; [done|].
  destruct (bucket_update m (generateHash k (getNumSlots m))
              (filter (λ e, key e ≠ k) (bucketOf k m))
              (totalNumItems m - Z.of_nat (length (bucketOf k m))
               + Z.of_nat (length (filter (λ e, key e ≠ k) (bucketOf k m)))))
    as (Hwf' & Hn' & Hf'); try done.
  { by apply NoDup_keys_filter. }
  { intros e [_ He]%list_elem_of_filter.
    destruct (Hc0 e He) as [? Hh0]. split; [done|]. rewrite Hh0. lia. }
  split; [done|]. split; [done|]. split.
  - intros k'. rewrite Hf', chainFind_filter_key.
    unfold find, bucketOf, getUnchecked.
    case_decide as Hi; case_decide as Hkk; try done; [by rewrite Hi | by subst k'].
  - cbn [totalNumItems]. unfold find, bucketOf.
    rewrite (filter_key_length k _ Hnd0). lia.
Qed.

Lemma clear_newHashMap m : clear m = newHashMap (getNumSlots m).
Proof.
  unfold clear, newHashMap, insertMultipleNull, getNumSlots. by rewrite Nat2Z.id.
Qed.

Lemma filter_join (P : HashEntry → Prop) `{!∀ e, Decision (P e)} (s : list chain) :
  filter P (mjoin s) = mjoin (filter P <$> s).
Proof.
  induction s as [|c s IH]; [done|]. csimpl.
  change (mjoin (c :: s)) with (c ++ mjoin s).
  by rewrite filter_app, IH.
Qed.

Lemma removeValueFrom_filter v (i : nat) (s : list chain) n :
  (i ≤ length s)%nat →
  removeValueFrom v i s n =
  ((filter (λ e, value e ≠ v) <$> take i s) ++ drop i s,
   n - Z.of_nat (length (mjoin (take i s)))
   + Z.of_nat (length (filter (λ e, value e ≠ v) (mjoin (take i s))))).
Proof.
  revert s n. induction i as [|i IH]; intros s n Hi.
  - simpl. rewrite drop_0. f_equal. lia.
  - destruct (lookup_lt_is_Some_2 s i) as [c Hc]; [lia|].
    cbn [removeValueFrom]. rewrite (getUnchecked_nat s i c Hc).
    rewrite chainRemoveValue_filter. unfold slotsSet. rewrite Nat2Z.id.
    rewrite IH by (rewrite length_insert; lia).
    rewrite take_insert_ge by lia.
    rewrite drop_insert_ge, Nat.sub_diag by lia.
    rewrite (drop_S s c i Hc). cbn [insert list_insert].
    rewrite (take_S_r s i c Hc), fmap_app, join_app, filter_app, !length_app.
    rewrite <- app_assoc. csimpl. rewrite !app_nil_r. f_equal. lia.
Qed.

Lemma removeValue_filter v m :
  removeValue v m =
  mkHashMap (filter (λ e, value e ≠ v) <$> slots m)
    (totalNumItems m - Z.of_nat (length (entries m))
     + Z.of_nat (length (filter (λ e, value e ≠ v) (entries m)))).
Proof.
  unfold removeValue. rewrite removeValueFrom_filter by done.
  by rewrite firstn_all, drop_all, app_nil_r.
Qed.

Lemma removeValue_wf v m : wf m → wf (removeValue v m).
Proof.
  intros (Hn & Hc & Hs). rewrite removeValue_filter.
  assert (Hlen : ∀ tot, getNumSlots (mkHashMap (filter (λ e, value e ≠ v) <$> slots m) tot)
                        = getNumSlots m).
  { intros tot. unfold getNumSlots. simpl. by rewrite length_fmap. }
  split; [by rewrite Hlen|]. split.
  - intros i c. rewrite Hlen. simpl. rewrite list_lookup_fmap.
    destruct (slots m !! i) as [c0|] eqn:Hi; simpl; [|done].
    intros [= <-]. destruct (Hc i c0 Hi) as [Hnd Hh]. split.
    + by apply NoDup_keys_filter.
    + intros e [_ He]%list_elem_of_filter. by apply Hh.
  - unfold countIsChainSum in *. simpl.
    rewrite <- length_join, <- filter_join. unfold entries.
    rewrite length_join. lia.
Qed.

(** ** Sequences of [set] calls *)

Lemma lastSet_is_Some k calls : is_Some (lastSet k calls) ↔ k ∈ calls.*1.
Proof.
  induction calls as [|[k' v] rest IH]; csimpl.
  - split; [by intros [? ?] | by intros ?%elem_of_nil].
  - rewrite elem_of_cons, <- IH.
    destruct (lastSet k rest) as [w|].
    + split; [by right | done].
    + case_decide as Hk.
      * split; [by left | done].
      * split; [by intros [? ?] | intros [->|[? ?]]; done].
Qed.

Lemma setAll_spec fuel calls m :
  wf m → loadBounded m → (2 ≤ fuel)%nat →
  (∀ k v, (k, v) ∈ calls → validKey k) →
  intFits m (Z.of_nat (length calls)) →
  ∃ m', setAll fuel calls m = Ok m' ∧ wf m' ∧ loadBounded m' ∧
        ∀ k, find k m' = if lastSet k calls is Some v then Some v else find k m.
Proof.
  intros Hwf Hload Hfuel. revert m Hwf Hload.
  induction calls as [|[k v] rest IH]; intros m Hwf Hload Hvalid [Hfit1 Hfit2].
  - by exists m.
  - simpl length in Hfit2.
    destruct (set_bounded fuel k v m)
      as (m1 & Hs & Hwf1 & Hl1 & Hi1 & _ & Hf1 & Ht1); [done|done| |done| |].
    { apply (Hvalid k v), list_elem_of_here. }
    { split; [done|lia]. }
    destruct (IH m1 Hwf1 Hl1) as (m' & Hs' & Hwf' & Hl' & Hf').
    { intros k' v' Hin. apply (Hvalid k' v'). by apply list_elem_of_further. }
    { split; [done|]. rewrite Ht1. destruct (find k m); lia. }
    exists m'. cbn [setAll]. rewrite Hs. cbn [bind]. split_and!; try done.
    intros k'. rewrite Hf', Hf1. cbn [lastSet].
    destruct (lastSet k' rest); [done|]. repeat case_decide; congruence.
Qed.

Lemma size_keys m : wf m → size m = Z.of_nat (length (key <$> entries m)).
Proof.
  intros (_ & _ & Hs). unfold size, entries.
  by rewrite length_fmap, length_join.
Qed.

Lemma elem_of_keys m k :
  wf m → k ∈ key <$> entries m ↔ is_Some (find k m).
Proof.
  intros (_ & Hc & _). split.
  - intros (e & -> & He)%list_elem_of_fmap_1. exists (value e).
    apply find_elem; [done|]. by rewrite entry_eta.
  - intros [v Hv]. apply (find_elem m k v Hc) in Hv.
    by apply (list_elem_of_fmap_2 key) in Hv.
Qed.

(** C1: after any sequence of [set] calls on a new map, [size()] is the
    number of distinct keys of the sequence, and [operator[]] on each key
    used returns the value of the last call with that key.  The slot count
    and the number of calls are such that the [int] arithmetic of [set]
    does not overflow. *)
Theorem C1_set_sequence fuel n calls :
  0 < n → (2 ≤ fuel)%nat → (∀ k v, (k, v) ∈ calls → validKey k) →
  3 * n <= INT_MAX → 4 * Z.of_nat (length calls) <= INT_MAX →
  ∃ m, setAll fuel calls (newHashMap n) = Ok m ∧
       size m = Z.of_nat (distinctKeys calls) ∧
       ∀ k, k ∈ calls.*1 →
            ∃ v, lastSet k calls = Some v ∧ operator_subscript k m = Ok v.
Proof.
  intros Hn Hfuel Hvalid Hn3 Hcalls.
  destruct (setAll_spec fuel calls (newHashMap n)) as (m & Hs & Hwf & _ & Hf);
    [by apply wf_newHashMap|by apply loadBounded_newHashMap|done|done| |].
  { split; [by rewrite getNumSlots_newHashMap by lia|done]. }
  exists m. split; [done|]. split.
  - rewrite (size_keys m Hwf). unfold distinctKeys. f_equal.
    apply Permutation_length, NoDup_Permutation.
    + by apply wf_wellFormed in Hwf as (_ & _ & _ & Hu & _).
    + apply NoDup_remove_dups.
    + intros k. rewrite elem_of_remove_dups, <- lastSet_is_Some, elem_of_keys by done.
      rewrite Hf, find_newHashMap. by destruct (lastSet k calls).
  - intros k Hk. pose proof Hk as [v Hv]%lastSet_is_Some. exists v. split; [done|].
    apply list_elem_of_fmap_1 in Hk as ([k' v'] & -> & Hin). simpl in *.
    rewrite operator_subscript_find; [|by apply (Hvalid k' v')|by destruct Hwf].
    by rewrite Hf, Hv.
Qed.

(** ** Properties of the public operations *)

Lemma entries_find m e :
  wf m → e ∈ entries m ↔ find (key e) m = Some (value e).
Proof.
  intros (_ & Hc & _). rewrite (find_elem m _ _ Hc). by rewrite entry_eta.
Qed.

Lemma entries_perm m m' :
  wf m → wf m' → (∀ k, find k m' = find k m) → entries m' ≡ₚ entries m.
Proof.
  intros Hwf Hwf' Hf. apply NoDup_Permutation.
  - apply wf_wellFormed in Hwf' as (_ & _ & _ & Hu & _). by apply NoDup_fmap_1 in Hu.
  - apply wf_wellFormed in Hwf as (_ & _ & _ & Hu & _). by apply NoDup_fmap_1 in Hu.
  - intros e. by rewrite !entries_find, Hf.
Qed.

(** C3: [remapTable (x)] followed by [remapTable (y)], for positive slot
    counts, keeps the entries of a well-formed map (as a collection, the
    order apart), the answer of every query and [size()].  The slot counts
    and the item count are such that the [int] arithmetic of the nested
    [set] calls does not overflow. *)
Theorem C3_remapTable_twice fuel x y m :
  wellFormed m → 0 < x → 0 < y → (2 ≤ fuel)%nat →
  3 * x <= INT_MAX → 3 * y <= INT_MAX → 4 * size m <= INT_MAX →
  ∃ m1 m2, remapTable fuel x m = Ok m1 ∧ remapTable fuel y m1 = Ok m2 ∧
           entries m2 ≡ₚ entries m ∧
           size m2 = size m ∧
           ∀ k, validKey k →
                operator_subscript k m2 = operator_subscript k m ∧
                contains k m2 = contains k m.
Proof.
  intros Hwf%wf_wellFormed Hx Hy Hfuel Hx3 Hy3 Hm4. unfold size in Hm4.
  destruct (remapTable_spec fuel x m)
    as (m1 & Hr1 & Hwf1 & _ & _ & Hf1 & Ht1 & _); [done..|].
  destruct (remapTable_spec fuel y m1)
    as (m2 & Hr2 & Hwf2 & _ & _ & Hf2 & Ht2 & _); [done|done|done|done|lia|].
  assert (Hf : ∀ k, find k m2 = find k m) by (intros k; by rewrite Hf2, Hf1).
  exists m1, m2. split_and!; try done.
  - by apply entries_perm.
  - unfold size. by rewrite Ht2, Ht1.
  - intros k Hk. destruct Hwf as (Hn & _), Hwf2 as (Hn2 & _).
    by rewrite !operator_subscript_find, !contains_find, Hf.
Qed.

(** C5: after [remove (k)] the key is absent ([contains] is false and
    [operator[]] yields the default value); [remove (k)] of an absent key
    returns the map unchanged; [operator[]] never fails, and on an absent
    key it yields the default value. *)
Theorem C5_remove_and_absent k m :
  validKey k → 0 < getNumSlots m →
  (∃ m', remove k m = Ok m' ∧
         contains k m' = Ok false ∧ operator_subscript k m' = Ok defaultValue) ∧
  (contains k m = Ok false →
     remove k m = Ok m ∧ operator_subscript k m = Ok defaultValue) ∧
  (∃ v, operator_subscript k m = Ok v).
Proof.
  intros Hk Hn. pose proof (hash_ok k _ Hk Hn) as Hh. split_and!.
  - rewrite remove_unfold by done. eexists. split; [done|].
    match goal with |- contains k ?m' = _ ∧ _ =>
      assert (Hn' : getNumSlots m' = getNumSlots m)
        by (unfold getNumSlots; simpl; by rewrite length_slotsSet);
      assert (Hf : find k m' = None)
    end.
    { unfold find. unfold bucketOf at 1. rewrite Hn'. cbn [slots].
      rewrite getUnchecked_slotsSet, decide_True by done.
      by rewrite chainFind_filter_key, decide_True. }
    rewrite contains_find, operator_subscript_find, Hf by (done || by rewrite Hn').
    by split.
  - rewrite contains_find by done. intros [= Hc%bool_decide_eq_false].
    assert (Hf : find k m = None).
    { destruct (find k m) eqn:E; [|done]. exfalso. by apply Hc. }
    split; [|by rewrite operator_subscript_find, Hf].
    rewrite remove_unfold by done. f_equal.
    rewrite (filter_key_absent k (bucketOf k m) Hf).
    unfold slotsSet, bucketOf. rewrite list_insert_id by (by apply getUnchecked_lookup).
    replace (_ - _ + _) with (totalNumItems m) by lia. apply hashMap_eta.
  - rewrite operator_subscript_find by done. eauto.
Qed.

Lemma filter_value_length v (l : list HashEntry) :
  Z.of_nat (length (filter (λ e, value e ≠ v) l)) =
  Z.of_nat (length l) - Z.of_nat (length (filter (λ e, value e = v) l)).
Proof.
  induction l as [|e l IH]; [done|].
  destruct (decide (value e = v)) as [He|He].
  - rewrite (filter_cons_False (λ e, value e ≠ v)) by (by intros ?).
    rewrite (filter_cons_True (λ e, value e = v)) by done. simpl length. lia.
  - rewrite (filter_cons_True (λ e, value e ≠ v)) by done.
    rewrite (filter_cons_False (λ e, value e = v)) by done. simpl length. lia.
Qed.

Lemma chainFind_filter_value k v (c : chain) :
  NoDup (key <$> c) →
  chainFind k (filter (λ e, value e ≠ v) c) =
  match chainFind k c with
  | Some w => if decide (w = v) then None else Some w
  | None => None
  end.
Proof.
  induction c as [|e c IH]; csimpl; [done|].
  intros [Hnotin Hnd]%NoDup_cons. cbn [chainFind].
  destruct (decide (value e = v)) as [He|He].
  - rewrite (filter_cons_False (λ e, value e ≠ v)) by (by intros ?).
    rewrite (IH Hnd). case_decide as Hk; [|done].
    subst k. apply chainFind_None in Hnotin. rewrite Hnotin.
    by rewrite decide_True.
  - rewrite (filter_cons_True (λ e, value e ≠ v)) by done. cbn [chainFind].
    case_decide as Hk; [by rewrite decide_False | by apply IH].
Qed.

Lemma removeValue_find v k m :
  wf m →
  find k (removeValue v m) =
  match find k m with
  | Some w => if decide (w = v) then None else Some w
  | None => None
  end.
Proof.
  intros (Hn & Hc & _). rewrite removeValue_filter.
  unfold find, bucketOf, getNumSlots, getUnchecked. simpl.
  rewrite length_fmap, list_lookup_fmap.
  destruct (slots m !! _) as [c|] eqn:Hi; simpl; [|done].
  apply chainFind_filter_value. by apply (Hc _ _ Hi).
Qed.

(** C6: [removeValue (v)] keeps exactly the entries whose value is not [v];
    [size()] drops by the number of entries that had the value [v]; in a
    well-formed map a key stored with another value is still found with
    that value, and a key that was stored with [v] is absent. *)
Theorem C6_removeValue v m :
  entries (removeValue v m) = filter (λ e, value e ≠ v) (entries m) ∧
  size (removeValue v m) =
    size m - Z.of_nat (length (filter (λ e, value e = v) (entries m))) ∧
  getNumSlots (removeValue v m) = getNumSlots m ∧
  (wellFormed m → ∀ k w, validKey k → mkEntry k w ∈ entries m →
     if decide (w = v)
     then contains k (removeValue v m) = Ok false
     else contains k (removeValue v m) = Ok true ∧
          operator_subscript k (removeValue v m) = Ok w).
Proof.
  rewrite removeValue_filter. split_and!.
  - unfold entries. simpl. by rewrite filter_join.
  - unfold size. simpl. rewrite filter_value_length. lia.
  - unfold getNumSlots. simpl. by rewrite length_fmap.
  - intros Hwf%wf_wellFormed k w Hk Hin. rewrite <- removeValue_filter.
    pose proof (removeValue_wf v m Hwf) as (Hn' & _).
    pose proof Hwf as (_ & Hc & _).
    apply (find_elem m k w Hc) in Hin.
    rewrite contains_find, operator_subscript_find by done.
    rewrite removeValue_find, Hin by done.
    by case_decide.
Qed.

(** C7: after [A.swapWith (B)] each of the two maps answers [size()],
    [getNumSlots()] and [operator[]] on every key as the other one did
    before. *)
Theorem C7_swapWith (a b : HashMap) :
  size (swapWith a b).1 = size b ∧ size (swapWith a b).2 = size a ∧
  getNumSlots (swapWith a b).1 = getNumSlots b ∧
  getNumSlots (swapWith a b).2 = getNumSlots a ∧
  ∀ k, operator_subscript k (swapWith a b).1 = operator_subscript k b ∧
       operator_subscript k (swapWith a b).2 = operator_subscript k a.
Proof.
  unfold swapWith. cbn [fst snd]. by rewrite !hashMap_eta.
Qed.

Lemma contains_false_find k m :
  validKey k → 0 < getNumSlots m →
  contains k m = Ok false ↔ find k m = None.
Proof.
  intros Hk Hn. rewrite contains_find by done. split.
  - intros [= Hc%bool_decide_eq_false].
    destruct (find k m) eqn:E; [|done]. exfalso. by apply Hc.
  - by intros ->.
Qed.

Lemma setCore_absent k v m :
  find k m = None →
  setCore k v m = linkNewEntry (generateHash k (getNumSlots m)) k v m.
Proof.
  intros Hf. unfold setCore. cbn zeta.
  apply (chainReplace_None k v) in Hf. unfold bucketOf in Hf. by rewrite Hf.
Qed.

Lemma grows_iff k m :
  0 < getNumSlots m →
  grows k m = true ↔
  find k m = None ∧ 3 * getNumSlots m < 2 * (totalNumItems m + 1).
Proof.
  intros Hn. unfold grows. rewrite andb_true_iff, bool_decide_eq_true.
  rewrite Z.gtb_ltb, Z.ltb_lt.
  split; intros [? ?]; (split; [done|]); Z.quot_rem_to_equations; lia.
Qed.

(** The growth rule of [set], on a map within the load bound: the table is
    rebuilt with twice the slots exactly when the key is new and the new
    count exceeds one and a half times the slot count. *)
Lemma set_growth_rule fuel k v m :
  wellFormed m → loadBounded m → validKey k → (2 ≤ fuel)%nat →
  3 * getNumSlots m <= INT_MAX → 4 * (size m + 1) <= INT_MAX →
  ∃ m', set fuel k v m = Ok m' ∧ wellFormed m' ∧ loadBounded m' ∧
        (∀ k', validKey k' →
           operator_subscript k' m' =
           if decide (k' = k) then Ok v else operator_subscript k' m) ∧
        (contains k m = Ok false →
         3 * getNumSlots m < 2 * (size m + 1) →
           getNumSlots m' = getNumSlots m * 2 ∧
           remapTable (pred fuel) (getNumSlots m * 2)
             (linkNewEntry (generateHash k (getNumSlots m)) k v m) = Ok m') ∧
        (contains k m = Ok true ∨ 2 * (size m + 1) <= 3 * getNumSlots m →
           getNumSlots m' = getNumSlots m).
Proof.
  intros Hwf%wf_wellFormed Hload Hk Hfuel Hfit1 Hfit2. pose proof Hwf as (Hn & _).
  pose proof (wf_count_nonneg m Hwf) as Hpos. unfold size in Hfit2.
  destruct (set_bounded fuel k v m Hwf Hload Hk Hfuel (conj Hfit1 Hfit2))
    as (m' & Hs & Hwf' & Hl' & _ & Hn' & Hf' & Htot').
  pose proof Hwf' as (Hn2 & _).
  exists m'. split_and!; try done.
  - by apply wf_wellFormed.
  - intros k' Hk'. rewrite !operator_subscript_find, Hf' by done.
    by case_decide.
  - intros Hc%contains_false_find Hgrow; [|done..].
    assert (Hg : grows k m = true) by (by apply grows_iff).
    rewrite Hg in Hn'. split; [done|].
    destruct fuel as [|fuel]; [lia|]. rewrite <- Hs. cbn [pred].
    rewrite set_S, Hg, setCore_absent
      by (done || unfold is_int, INT_MIN, INT_MAX in *; lia).
    done.
  - intros Hno. destruct (grows k m) eqn:Hg; [|done].
    apply grows_iff in Hg as [Hg1 Hg2]; [|done].
    destruct Hno as [Hc|Hle]; [|unfold size in Hle; lia].
    rewrite contains_find, Hg1 in Hc by done. done.
Qed.

(** C8, as the code has it: [set (k, v)] for a key that is not in the map
    links the new entry in front of the chain the key hashes to (the
    entries already there follow it in their order, the other chains are
    untouched) and increments the counter by one; the growth test then
    runs on that table, and in either case [size()] has grown by one.
    The slot count and the item count are such that the [int] arithmetic
    of [set] does not overflow. *)
Theorem C8_set_links_at_head fuel k v m :
  wellFormed m → validKey k → contains k m = Ok false → (3 ≤ fuel)%nat →
  3 * getNumSlots m <= INT_MAX → 4 * (size m + 1) <= INT_MAX →
  let h := generateHash k (getNumSlots m) in
  let m1 := linkNewEntry h k v m in
  getUnchecked (slots m1) h = mkEntry k v :: getUnchecked (slots m) h ∧
  (∀ i, i ≠ Z.to_nat h → slots m1 !! i = slots m !! i) ∧
  totalNumItems m1 = totalNumItems m + 1 ∧
  set fuel k v m =
    (if totalNumItems m1 >? (getNumSlots m * 3) `quot` 2
     then remapTable (pred fuel) (getNumSlots m * 2) m1 else Ok m1) ∧
  ∃ m', set fuel k v m = Ok m' ∧ size m' = size m + 1.
Proof.
  intros Hwf%wf_wellFormed Hk Hc Hfuel Hfit1 Hfit2 h m1.
  pose proof Hwf as (Hn & _).
  pose proof (wf_count_nonneg m Hwf) as Hpos. unfold size in Hfit2.
  apply contains_false_find in Hc; [|done..].
  pose proof (hash_ok k _ Hk Hn) as Hh. split_and!.
  - unfold m1, linkNewEntry. cbn [slots].
    by rewrite getUnchecked_slotsSet, decide_True.
  - intros i Hi. unfold m1, linkNewEntry, slotsSet. cbn [slots].
    by rewrite list_lookup_insert_ne.
  - done.
  - destruct fuel as [|fuel]; [lia|]. cbn [pred].
    rewrite set_S by (done || unfold is_int, INT_MIN, INT_MAX in *; lia).
    unfold grows. rewrite Hc, bool_decide_eq_true_2 by done.
    cbn [andb]. by rewrite setCore_absent.
  - destruct (set_spec fuel k v m Hwf Hk Hfuel (conj Hfit1 Hfit2))
      as (m' & Hs & _ & _ & Htot).
    exists m'. split; [done|]. unfold size. by rewrite Htot, Hc.
Qed.

(** ** Runs of public operations on two maps *)

Lemma sound_newHashMap n : 0 < n → 3 * n <= INT_MAX → sound (newHashMap n).
Proof.
  intros Hn Hn3. split_and!.
  - by apply wf_newHashMap.
  - by apply loadBounded_newHashMap.
  - by rewrite getNumSlots_newHashMap by lia.
Qed.

Lemma onMap_sound w f st :
  sound st.1 → sound st.2 →
  4 * (totalNumItems st.1 + totalNumItems st.2 + 1) <= INT_MAX →
  (∀ m, sound m → 4 * (totalNumItems m + 1) <= INT_MAX →
        ∃ m', f m = Ok m' ∧ sound m' ∧ totalNumItems m' <= totalNumItems m + 1) →
  ∃ st', onMap w f st = Ok st' ∧ sound st'.1 ∧ sound st'.2 ∧
         totalNumItems st'.1 + totalNumItems st'.2 <=
         totalNumItems st.1 + totalNumItems st.2 + 1.
Proof.
  intros Ha Hb Hfit Hf.
  pose proof (wf_count_nonneg _ (proj1 Ha)) as Hpa.
  pose proof (wf_count_nonneg _ (proj1 Hb)) as Hpb.
  destruct w; simpl.
  - destruct (Hf _ Ha) as (a & -> & Ha' & Hta); [lia|]. simpl.
    eexists. split; [done|]. simpl. split_and!; try done. lia.
  - destruct (Hf _ Hb) as (b & -> & Hb' & Htb); [lia|]. simpl.
    eexists. split; [done|]. simpl. split_and!; try done. lia.
Qed.

Lemma removeValue_loadBounded v m : loadBounded m → loadBounded (removeValue v m).
Proof.
  unfold loadBounded. rewrite removeValue_filter. intros Hl.
  unfold getNumSlots. cbn [slots totalNumItems]. rewrite length_fmap.
  pose proof (length_filter (λ e, value e ≠ v) (entries m)).
  unfold getNumSlots in Hl. lia.
Qed.

Lemma runOp_sound fuel op st :
  (2 ≤ fuel)%nat → validOp op → sound st.1 → sound st.2 →
  4 * (totalNumItems st.1 + totalNumItems st.2 + 1) <= INT_MAX →
  ∃ st', runOp fuel op st = Ok st' ∧ sound st'.1 ∧ sound st'.2 ∧
         totalNumItems st'.1 + totalNumItems st'.2 <=
         totalNumItems st.1 + totalNumItems st.2 + 1.
Proof.
  intros Hfuel Hop Ha Hb Hfit. destruct op; simpl in *.
  - apply onMap_sound; try done. intros m (Hm & Hl & Hi) Hm4.
    destruct (set_bounded fuel k v m) as (m' & ? & ? & ? & ? & _ & _ & Ht);
      try done.
    exists m'. split; [done|]. split; [done|].
    rewrite Ht. destruct (find k m); lia.
  - apply onMap_sound; try done. intros m (Hm & Hl & Hi) Hm4.
    destruct (remove_spec k m) as (m' & ? & ? & Hn & _ & Ht); try done.
    exists m'. split; [done|]. split.
    + split; [done|]. unfold loadBounded in *. rewrite Hn, Ht.
      split; [|done]. destruct (find k m); lia.
    + rewrite Ht. destruct (find k m); lia.
  - apply onMap_sound; try done. intros m (Hm & Hl & Hi) Hm4.
    eexists. split; [done|]. split.
    + split_and!; [by apply removeValue_wf | by apply removeValue_loadBounded |].
      rewrite removeValue_filter. unfold getNumSlots in *. simpl.
      by rewrite length_fmap.
    + rewrite removeValue_filter. simpl.
      pose proof (length_filter (λ e, value e ≠ v) (entries m)). lia.
  - apply onMap_sound; try done. intros m (Hm & Hl & Hi) Hm4.
    pose proof (wf_count_nonneg m Hm).
    eexists. split; [done|]. rewrite clear_newHashMap. destruct Hm as (Hn & _).
    split; [by apply sound_newHashMap | simpl; lia].
  - apply onMap_sound; try done. intros m (Hm & Hl & Hi) Hm4.
    destruct Hop as [Hpos Hcap].
    destruct (remapTable_spec fuel newNumberOfSlots m)
      as (m' & ? & ? & ? & _ & _ & Ht & ?); try done; [lia|].
    exists m'. split; [done|]. split; [done|lia].
  - eexists. split; [done|]. simpl. rewrite !hashMap_eta.
    split_and!; try done. lia.
Qed.

Lemma runOps_sound fuel ops st :
  (2 ≤ fuel)%nat → Forall validOp ops → sound st.1 → sound st.2 →
  4 * (totalNumItems st.1 + totalNumItems st.2 + Z.of_nat (length ops))
    <= INT_MAX →
  ∃ st', runOps fuel ops st = Ok st' ∧ sound st'.1 ∧ sound st'.2.
Proof.
  intros Hfuel Hops. revert st.
  induction Hops as [|op rest Hop _ IH]; intros st Ha Hb Hfit.
  - by exists st.
  - simpl length in Hfit.
    destruct (runOp_sound fuel op st) as (st1 & Hr1 & Ha1 & Hb1 & Ht1);
      [done..|lia|].
    destruct (IH st1 Ha1 Hb1) as (st' & Hr & Ha' & Hb'); [lia|].
    exists st'. simpl. by rewrite Hr1.
Qed.

(** Every table reached from two new maps is well formed and within the
    load bound. *)
Lemma reachable_wellFormed_loadBounded fuel na nb ops a b :
  0 < na → 0 < nb → (2 ≤ fuel)%nat → Forall validOp ops →
  3 * na <= INT_MAX → 3 * nb <= INT_MAX →
  4 * Z.of_nat (length ops) <= INT_MAX →
  runOps fuel ops (newHashMap na, newHashMap nb) = Ok (a, b) →
  (wellFormed a ∧ loadBounded a) ∧ (wellFormed b ∧ loadBounded b).
Proof.
  intros Hna Hnb Hfuel Hops Hna3 Hnb3 Hlen Hrun.
  destruct (runOps_sound fuel ops (newHashMap na, newHashMap nb))
    as (st' & Hr & (Ha & Hla & _) & (Hb & Hlb & _)); try done;
    try (by apply sound_newHashMap).
  rewrite Hrun in Hr. injection Hr as <-.
  split; (split; [by apply wf_wellFormed | done]).
Qed.

(** C4: every state reached from two new maps by public operations
    satisfies the three invariants (each entry is in the slot its key
    hashes to, no key occurs twice, the counter is the sum of the chain
    lengths), and no operation of the run fails.  The slot counts and the
    length of the run are such that the [int] arithmetic of [set] does not
    overflow. *)
Theorem C4_invariants fuel na nb ops :
  0 < na → 0 < nb → (2 ≤ fuel)%nat → Forall validOp ops →
  3 * na <= INT_MAX → 3 * nb <= INT_MAX →
  4 * Z.of_nat (length ops) <= INT_MAX →
  ∃ a b, runOps fuel ops (newHashMap na, newHashMap nb) = Ok (a, b) ∧
         (entriesInOwnBucket a ∧ keysUnique a ∧ countIsChainSum a) ∧
         (entriesInOwnBucket b ∧ keysUnique b ∧ countIsChainSum b).
Proof.
  intros Hna Hnb Hfuel Hops Hna3 Hnb3 Hlen.
  destruct (runOps_sound fuel ops (newHashMap na, newHashMap nb))
    as ([a b] & Hr & (Ha & _) & (Hb & _)); try done;
    try (by apply sound_newHashMap).
  exists a, b. split; [done|].
  apply wf_wellFormed in Ha as (_ & _ & ? & ? & ?).
  apply wf_wellFormed in Hb as (_ & _ & ? & ? & ?). done.
Qed.


(** ** Iteration *)

Lemma nextSlot_spec (all rest : list chain) (i : Z) :
  0 <= i → rest = drop (Z.to_nat i) all →
  match mjoin rest with
  | [] => (nextSlot rest i).1 = false
  | e :: es =>
      ∃ it', nextSlot rest i = (true, it') ∧ 0 <= index it' ∧
             ∃ tl, entry it' = e :: tl ∧
                   tl ++ mjoin (drop (Z.to_nat (index it')) all) = es
  end.
Proof.
  revert i. induction rest as [|c rest' IH]; intros i Hi Hrest; [done|].
  assert (Hnext : rest' = drop (Z.to_nat (i + 1)) all).
  { assert (Hc : all !! Z.to_nat i = Some c).
    { pose proof (lookup_drop all (Z.to_nat i) 0) as Hl.
      rewrite <- Hrest, Nat.add_0_r in Hl. by rewrite <- Hl. }
    rewrite (drop_S all c _ Hc) in Hrest. injection Hrest as ->.
    f_equal. lia. }
  change (mjoin (c :: rest')) with (c ++ mjoin rest').
  destruct c as [|e tl]; cbn [nextSlot app].
  - apply IH; [lia|done].
  - eexists. split; [done|]. cbn [index entry]. split; [lia|].
    exists tl. by rewrite <- Hnext.
Qed.

Lemma next_spec m it :
  0 <= index it →
  match remaining m it with
  | [] => (next m it).1 = false
  | e :: es =>
      ∃ it', next m it = (true, it') ∧ 0 <= index it' ∧
             remaining m it' = es ∧
             getKey it' = key e ∧ getValue it' = value e
  end.
Proof.
  intros Hi. unfold next, remaining.
  destruct (entry it) as [|x [|y tl]]; cbn [tail app].
  - pose proof (nextSlot_spec (slots m) _ (index it) Hi eq_refl) as H.
    destruct (mjoin _) as [|e es]; [done|].
    destruct H as (it' & -> & Hi' & tl & He & Hrem).
    exists it'. unfold getKey, getValue. rewrite He. by split_and!.
  - pose proof (nextSlot_spec (slots m) _ (index it) Hi eq_refl) as H.
    destruct (mjoin _) as [|e es]; [done|].
    destruct H as (it' & -> & Hi' & tl & He & Hrem).
    exists it'. unfold getKey, getValue. rewrite He. by split_and!.
  - eexists. by split_and!.
Qed.

Lemma iterate_spec fuel m it :
  0 <= index it → (length (remaining m it) < fuel)%nat →
  iterate fuel m it = (λ e, (key e, value e)) <$> remaining m it.
Proof.
  revert it. induction fuel as [|fuel IH]; intros it Hi Hlen; [lia|].
  pose proof (next_spec m it Hi) as H. cbn [iterate].
  destruct (remaining m it) as [|e es].
  - destruct (next m it) as [more it']. simpl in H. by subst more.
  - destruct H as (it' & -> & Hi' & Hrem & -> & ->).
    csimpl. f_equal. rewrite <- Hrem. apply IH; [done|].
    rewrite Hrem. simpl in Hlen. lia.
Qed.

(** X1: iterating a map with [Iterator::next] from a new iterator yields
    every entry exactly once, slot by slot and each chain from its head,
    and then [next] returns false: with more calls allowed than there are
    entries, the pairs seen are exactly the entries of the map. *)
Theorem X1_iterator_visits_entries fuel m :
  (length (entries m) < fuel)%nat →
  iterate fuel m newIterator = (λ e, (key e, value e)) <$> entries m.
Proof.
  intros Hlen. by rewrite iterate_spec.
Qed.

(** X2: on a well-formed map the iteration sees as many pairs as [size()]
    says, no key twice, and a pair (k, v) exactly when [contains (k)] holds
    and [operator[]] returns v. *)
Theorem X2_iterator_agrees_with_lookup fuel m :
  wellFormed m → (length (entries m) < fuel)%nat →
  Z.of_nat (length (iterate fuel m newIterator)) = size m ∧
  NoDup ((iterate fuel m newIterator).*1) ∧
  ∀ k v, validKey k →
    (k, v) ∈ iterate fuel m newIterator ↔
    contains k m = Ok true ∧ operator_subscript k m = Ok v.
Proof.
  intros Hwf Hlen. rewrite iterate_spec by done.
  change (remaining m newIterator) with (entries m).
  pose proof Hwf as (Hn & _ & _ & Hu & Hs).
  apply wf_wellFormed in Hwf. pose proof Hwf as (_ & Hc & _). split_and!.
  - rewrite length_fmap. unfold size, entries. rewrite length_join. by rewrite Hs.
  - rewrite <- list_fmap_compose. exact Hu.
  - intros k v Hk. rewrite contains_find, operator_subscript_find by done.
    split.
    + intros (e & [= -> ->] & He)%list_elem_of_fmap_1.
      apply entries_find in He; [|done]. by rewrite He.
    + intros [[= Hsome%bool_decide_eq_true] [= Hv]].
      destruct Hsome as [w Hw]. rewrite Hw in Hv. simpl in Hv. subst w.
      apply (find_elem m k v Hc) in Hw.
      apply list_elem_of_fmap. by exists (mkEntry k v).
Qed.


(** ** Further properties of the operations *)

Lemma queries_of_find k m m' :
  validKey k → 0 < getNumSlots m → 0 < getNumSlots m' → find k m' = find k m →
  contains k m' = contains k m ∧ operator_subscript k m' = operator_subscript k m.
Proof.
  intros Hk Hn Hn' Hf. by rewrite !contains_find, !operator_subscript_find, Hf.
Qed.

Lemma contains_true_find k m :
  validKey k → 0 < getNumSlots m →
  contains k m = Ok true ↔ is_Some (find k m).
Proof.
  intros Hk Hn. rewrite contains_find by done. split.
  - by intros [= H%bool_decide_eq_true].
  - intros H. f_equal. by apply bool_decide_eq_true_2.
Qed.

Lemma set_spec_slots fuel k v m :
  wf m → validKey k → (3 ≤ fuel)%nat → intFits m 1 →
  ∃ m', set fuel k v m = Ok m' ∧ wf m' ∧ getNumSlots m <= getNumSlots m' ∧
        3 * getNumSlots m' <= INT_MAX ∧
        (∀ k', find k' m' = if decide (k' = k) then Some v else find k' m) ∧
        totalNumItems m' = totalNumItems m + (if find k m is Some _ then 0 else 1).
Proof.
  intros Hwf Hk Hfuel [Hfit1 Hfit2]. pose proof Hwf as (Hn & _ & _).
  pose proof (wf_count_nonneg m Hwf) as Hpos.
  destruct fuel as [|fuel]; [lia|].
  destruct (setCore_spec k v m Hwf Hk) as (Hwf1 & Hn1 & Hf1 & Htot1).
  rewrite set_S by (done || unfold is_int, INT_MIN, INT_MAX in *; lia).
  destruct (grows k m) eqn:Hg.
  - pose proof (grows_six _ _ Hg) as Hsix.
    pose proof (grows_find _ _ Hg) as Hnone. rewrite Hnone in Htot1.
    destruct (remapTable_spec fuel (getNumSlots m * 2) (setCore k v m))
      as (m' & Hr & Hwf' & _ & Hx & Hf' & Htot' & Hi'); [done|lia|lia|lia|lia|].
    exists m'. split_and!; try done.
    + lia.
    + intros k'. by rewrite Hf', Hf1.
    + by rewrite Htot', Htot1, Hnone.
  - exists (setCore k v m). split_and!; try done; [lia|by rewrite Hn1].
Qed.

(** X3: [clear] empties the map and keeps its slots: afterwards [size()]
    is 0, [getNumSlots()] is unchanged, no entry is left, every key is
    absent, and the map is well formed again whatever it was before. *)
Theorem X3_clear k m :
  validKey k → 0 < getNumSlots m →
  size (clear m) = 0 ∧ getNumSlots (clear m) = getNumSlots m ∧
  entries (clear m) = [] ∧ wellFormed (clear m) ∧
  contains k (clear m) = Ok false ∧
  operator_subscript k (clear m) = Ok defaultValue.
Proof.
  intros Hk Hn. rewrite clear_newHashMap.
  assert (Hn' : getNumSlots (newHashMap (getNumSlots m)) = getNumSlots m)
    by (apply getNumSlots_newHashMap; lia).
  split_and!.
  - done.
  - done.
  - apply entries_newHashMap.
  - by apply wf_wellFormed, wf_newHashMap.
  - rewrite contains_find, find_newHashMap by (done || by rewrite Hn'). done.
  - rewrite operator_subscript_find, find_newHashMap by (done || by rewrite Hn'). done.
Qed.

(** X4: on any well-formed map [set (k, v)] returns a well-formed map with
    at least as many slots, in which k is contained and looked up as v,
    every other key answers as before, and [size()] is unchanged when k
    was present and one more when it was not.  The slot count and the item
    count are such that the [int] arithmetic of [set] does not overflow. *)
Theorem X4_set_then_lookup fuel k v m :
  wellFormed m → validKey k → (3 ≤ fuel)%nat →
  3 * getNumSlots m <= INT_MAX → 4 * (size m + 1) <= INT_MAX →
  ∃ m', set fuel k v m = Ok m' ∧ wellFormed m' ∧
        getNumSlots m <= getNumSlots m' ∧
        contains k m' = Ok true ∧ operator_subscript k m' = Ok v ∧
        (∀ k', validKey k' → k' ≠ k →
           contains k' m' = contains k' m ∧
           operator_subscript k' m' = operator_subscript k' m) ∧
        (contains k m = Ok true → size m' = size m) ∧
        (contains k m = Ok false → size m' = size m + 1).
Proof.
  intros Hwf%wf_wellFormed Hk Hfuel Hfit1 Hfit2. pose proof Hwf as (Hn & _).
  destruct (set_spec_slots fuel k v m Hwf Hk Hfuel (conj Hfit1 Hfit2))
    as (m' & Hs & Hwf' & Hsl & _ & Hf & Ht).
  pose proof Hwf' as (Hn' & _).
  exists m'. split; [done|]. split; [by apply wf_wellFormed|]. split; [done|].
  split_and!.
  - apply contains_true_find; [done..|]. rewrite Hf, decide_True by done. eauto.
  - rewrite operator_subscript_find, Hf, decide_True by done. done.
  - intros k' Hk' Hne. apply queries_of_find; [done..|].
    by rewrite Hf, decide_False.
  - intros [w Hw]%contains_true_find; [|done..]. unfold size. rewrite Ht, Hw. lia.
  - intros Hc%contains_false_find; [|done..]. unfold size. by rewrite Ht, Hc.
Qed.

Lemma chainReplace_same k v (c : chain) :
  chainFind k c = Some v → chainReplace k v c = Some c.
Proof.
  induction c as [|e c IH]; simpl; [done|].
  destruct (decide (key e = k)) as [Hk|Hk].
  - intros [= <-]. by rewrite entry_eta.
  - intros H. by rewrite (IH H).
Qed.

(** X5: [set (k, v)] for a key that is in the map overwrites the value in
    place: it needs no rebuild whatever the load is, the slot count, the
    item count and the position of every key in every chain are unchanged,
    k is looked up as v, and the map is the same as before when k already
    had the value v. *)
Theorem X5_set_present_key fuel k v m :
  contains k m = Ok true →
  ∃ m', set (S fuel) k v m = Ok m' ∧
        getNumSlots m' = getNumSlots m ∧ size m' = size m ∧
        (λ c : chain, key <$> c) <$> slots m' =
          (λ c : chain, key <$> c) <$> slots m ∧
        operator_subscript k m' = Ok v ∧
        (operator_subscript k m = Ok v → m' = m).
Proof.
  unfold contains, operator_subscript, generateHashFor. cbn [set].
  unfold generateHashFor.
  destruct (isPositiveAndBelow _ _) eqn:Hrange; [|done]. cbn [bind].
  intros [= Hsome%bool_decide_eq_true].
  apply andb_true_iff in Hrange as [H0%Z.leb_le H1%Z.ltb_lt].
  pose proof (getUnchecked_lookup (slots m) _ (conj H0 H1)) as Hlook.
  destruct (chainReplace k v _) as [c|] eqn:Hr.
  2:{ apply chainReplace_None in Hr. rewrite Hr in Hsome. by destruct Hsome. }
  eexists. split; [done|].
  assert (Hn : getNumSlots (mkHashMap (slotsSet (slots m)
                 (generateHash k (getNumSlots m)) c) (totalNumItems m))
               = getNumSlots m).
  { unfold getNumSlots. cbn [slots]. by rewrite length_slotsSet. }
  rewrite Hn. split; [done|]. split; [done|]. split_and!.
  - cbn [slots]. unfold slotsSet. rewrite list_fmap_insert.
    rewrite (chainReplace_keys _ _ _ _ Hr). apply list_insert_id.
    by rewrite list_lookup_fmap, Hlook.
  - apply Z.leb_le in H0. apply Z.ltb_lt in H1.
    unfold isPositiveAndBelow. rewrite H0, H1. cbn [andb slots bind].
    apply Z.leb_le in H0. apply Z.ltb_lt in H1.
    rewrite getUnchecked_slotsSet, decide_True by done.
    by rewrite (chainReplace_find _ _ _ _ k Hr), decide_True.
  - destruct Hsome as [w Hw]. rewrite Hw. cbn [default]. intros [= ->].
    rewrite (chainReplace_same _ _ _ Hw) in Hr. injection Hr as <-.
    unfold slotsSet. rewrite list_insert_id by done. apply hashMap_eta.
Qed.

(** X6: on a well-formed map [remove (k)] returns a well-formed map with
    the same slots in which every other key answers as before; [size()]
    drops by one when k was present and is unchanged when it was not. *)
Theorem X6_remove_other_keys k m :
  wellFormed m → validKey k →
  ∃ m', remove k m = Ok m' ∧ wellFormed m' ∧
        getNumSlots m' = getNumSlots m ∧
        (∀ k', validKey k' → k' ≠ k →
           contains k' m' = contains k' m ∧
           operator_subscript k' m' = operator_subscript k' m) ∧
        (contains k m = Ok true → size m' = size m - 1) ∧
        (contains k m = Ok false → size m' = size m).
Proof.
  intros Hwf%wf_wellFormed Hk. pose proof Hwf as (Hn & _).
  destruct (remove_spec k m Hwf Hk) as (m' & Hr & Hwf' & Hn' & Hf & Ht).
  pose proof Hwf' as (Hn2 & _).
  exists m'. split; [done|]. split; [by apply wf_wellFormed|]. split; [done|].
  split_and!.
  - intros k' Hk' Hne. apply queries_of_find; [done..|].
    by rewrite Hf, decide_False.
  - intros [w Hw]%contains_true_find; [|done..]. unfold size. by rewrite Ht, Hw.
  - intros Hc%contains_false_find; [|done..]. unfold size. rewrite Ht, Hc. lia.
Qed.

Lemma containsValue_spec v m :
  containsValue v m = true ↔ ∃ e, e ∈ entries m ∧ value e = v.
Proof.
  unfold containsValue, entries. rewrite existsb_exists. split.
  - intros (c & Hc%list_elem_of_In & He). rewrite elem_of_reverse in Hc.
    apply existsb_exists in He as (e & He%list_elem_of_In & Hv%bool_decide_eq_true).
    exists e. split; [|done]. apply list_elem_of_join. eauto.
  - intros (e & (c & He & Hc)%list_elem_of_join & Hv).
    exists c. split; [apply list_elem_of_In; by rewrite elem_of_reverse|].
    apply existsb_exists. exists e. split; [by apply list_elem_of_In|].
    by apply bool_decide_eq_true_2.
Qed.

(** X7: [containsValue (v)] is true exactly when some entry of the map
    holds the value v; on a well-formed map that is when some key is
    contained and looked up as v. *)
Theorem X7_containsValue v m :
  (containsValue v m = true ↔ ∃ e, e ∈ entries m ∧ value e = v) ∧
  (wellFormed m →
     containsValue v m = true ↔
     ∃ k, validKey k ∧ contains k m = Ok true ∧ operator_subscript k m = Ok v).
Proof.
  split; [apply containsValue_spec|].
  intros Hwf. pose proof Hwf as (Hn & Hv & _). apply wf_wellFormed in Hwf.
  rewrite containsValue_spec. split.
  - intros (e & He & <-). pose proof (Hv e He) as Hk.
    exists (key e). split; [done|].
    apply entries_find in He; [|done].
    by rewrite contains_find, operator_subscript_find, He.
  - intros (k & Hk & Hc & Ho).
    apply contains_true_find in Hc as [w Hw]; [|done..].
    rewrite operator_subscript_find, Hw in Ho by done. injection Ho as ->.
    exists (mkEntry k v). split; [|done]. apply find_elem; [by destruct Hwf as (_ & ? & _)|done].
Qed.

Lemma entries_removeValue v m :
  entries (removeValue v m) = filter (λ e, value e ≠ v) (entries m).
Proof. rewrite removeValue_filter. unfold entries. simpl. by rewrite filter_join. Qed.

Lemma filter_all (P : HashEntry → Prop) `{!∀ e, Decision (P e)} (l : list HashEntry) :
  (∀ e, e ∈ l → P e) → filter P l = l.
Proof.
  induction l as [|e l IH]; intros Hall; [done|].
  rewrite (filter_cons_True P) by apply Hall, list_elem_of_here.
  f_equal. apply IH. intros e' He'. by apply Hall, list_elem_of_further.
Qed.

(** X8: after [removeValue (v)] no entry holds v, so [containsValue (v)] is
    false; [removeValue (v)] of a value that does not occur returns the
    map unchanged; and for every other value [containsValue] answers as
    before. *)
Theorem X8_removeValue_containsValue v m :
  containsValue v (removeValue v m) = false ∧
  (containsValue v m = false → removeValue v m = m) ∧
  (∀ w, w ≠ v → containsValue w (removeValue v m) = containsValue w m).
Proof.
  split_and!.
  - apply not_true_iff_false. rewrite containsValue_spec, entries_removeValue.
    intros (e & [Hne _]%list_elem_of_filter & Hv). done.
  - intros Hno%not_true_iff_false. rewrite containsValue_spec in Hno.
    assert (Hall : ∀ c, c ∈ slots m → filter (λ e, value e ≠ v) c = c).
    { intros c Hc. apply filter_all. intros e He Hv. apply Hno.
      exists e. split; [|done]. apply list_elem_of_join. eauto. }
    rewrite removeValue_filter.
    assert (Hs : filter (λ e, value e ≠ v) <$> slots m = slots m).
    { clear Hno. induction (slots m) as [|c s IH]; [done|]. csimpl.
      rewrite (Hall c) by apply list_elem_of_here. f_equal.
      apply IH. intros c' Hc'. by apply Hall, list_elem_of_further. }
    rewrite Hs. unfold entries at 2. rewrite filter_join, Hs.
    replace (_ - _ + _) with (totalNumItems m) by (unfold entries; lia).
    apply hashMap_eta.
  - intros w Hw. apply eq_true_iff_eq.
    rewrite !containsValue_spec, entries_removeValue. split.
    + intros (e & [_ He]%list_elem_of_filter & Hv). eauto.
    + intros (e & He & Hv). exists e. split; [|done].
      apply list_elem_of_filter. split; [congruence|done].
Qed.

Lemma remapTable_exact fuel x m :
  wf m → 0 < x → (1 ≤ fuel)%nat → 3 * x <= INT_MAX →
  totalNumItems m <= (x * 3) `quot` 2 →
  ∃ m', remapTable fuel x m = Ok m' ∧ getNumSlots m' = x.
Proof.
  intros Hwf Hx Hfuel Hx3 Hfit. destruct fuel as [|fuel]; [lia|].
  pose (P := λ (r : nat) (t : HashMap),
          wf t ∧ getNumSlots t = x ∧
          totalNumItems t + Z.of_nat r <= (x * 3) `quot` 2).
  destruct (remapTableWith_loop (set (S fuel)) P) with (n := x) (m := m)
    as (t' & Hr & (Hwf' & Hn' & _) & _); [|done|..].
  - intros r t k v (Hwft & Hnt & Hbt) Hk Hf.
    destruct (setCore_spec k v t Hwft Hk) as (Hwf2 & Hn2 & Hf2 & Htot2).
    rewrite Hf in Htot2.
    pose proof (wf_count_nonneg t Hwft) as Hpost.
    assert (Hq : (x * 3) `quot` 2 <= INT_MAX)
      by (clear Hbt Hfit; unfold INT_MAX in *; Z.quot_rem_to_equations; lia).
    exists (setCore k v t). split_and!; try done.
    + apply set_nogrow; [done|lia| | |].
      * unfold is_int, INT_MIN. lia.
      * lia.
      * unfold grows. rewrite Hnt.
        apply andb_false_intro2. rewrite Z.gtb_ltb. apply Z.ltb_ge. lia.
    + split_and!; [done|congruence|lia].
  - split_and!.
    + by apply wf_newHashMap.
    + apply getNumSlots_newHashMap. lia.
    + destruct Hwf as (_ & _ & Hs). unfold countIsChainSum in Hs.
      unfold entries. rewrite length_join. simpl. lia.
  - by exists t'.
Qed.

(** X9: [remapTable (x)] with a positive x keeps the content of a
    well-formed map ([size()] and the answer for every key) and never
    leaves the table above the load bound of one and a half items per
    slot: the new table has exactly x slots when the items fit under that
    bound, and more than x slots when they do not.  The slot count and the
    item count are such that the [int] arithmetic of the nested [set]
    calls does not overflow. *)
Theorem X9_remapTable_once fuel x m :
  wellFormed m → 0 < x → (2 ≤ fuel)%nat →
  3 * x <= INT_MAX → 4 * size m <= INT_MAX →
  ∃ m', remapTable fuel x m = Ok m' ∧ wellFormed m' ∧ loadBounded m' ∧
        size m' = size m ∧
        (∀ k, validKey k →
           contains k m' = contains k m ∧
           operator_subscript k m' = operator_subscript k m) ∧
        (2 * size m <= 3 * x → getNumSlots m' = x) ∧
        (3 * x < 2 * size m → x < getNumSlots m').
Proof.
  intros Hwf%wf_wellFormed Hx Hfuel Hx3 Hm4. pose proof Hwf as (Hn & _).
  destruct (remapTable_spec fuel x m Hwf Hx Hfuel Hx3 Hm4)
    as (m' & Hr & Hwf' & Hl' & Hx' & Hf' & Ht' & _).
  pose proof Hwf' as (Hn' & _).
  exists m'. split; [done|]. split; [by apply wf_wellFormed|]. split; [done|].
  split; [done|]. split_and!.
  - intros k Hk. by apply queries_of_find.
  - intros Hfit.
    destruct (remapTable_exact fuel x m) as (m'' & Hr'' & Hn'');
      [done|done|lia|done| |].
    + unfold size in Hfit. clear Hx3 Hm4. Z.quot_rem_to_equations. lia.
    + rewrite Hr in Hr''. injection Hr'' as <-. done.
  - intros Hover. unfold loadBounded in Hl'. unfold size in Hover.
    rewrite Ht' in Hl'. Z.quot_rem_to_equations. lia.
Qed.

(** X10: every run of public operations on two new maps succeeds and
    leaves both with at least one slot, a counter that is not negative and
    at most one and a half items per slot.  The slot counts and the length
    of the run are such that the [int] arithmetic of [set] does not
    overflow. *)
Theorem X10_reachable_load_bound fuel na nb ops :
  0 < na → 0 < nb → (2 ≤ fuel)%nat → Forall validOp ops →
  3 * na <= INT_MAX → 3 * nb <= INT_MAX →
  4 * Z.of_nat (length ops) <= INT_MAX →
  ∃ a b, runOps fuel ops (newHashMap na, newHashMap nb) = Ok (a, b) ∧
         (0 < getNumSlots a ∧ 0 <= size a ∧ 2 * size a <= 3 * getNumSlots a) ∧
         (0 < getNumSlots b ∧ 0 <= size b ∧ 2 * size b <= 3 * getNumSlots b).
Proof.
  intros Hna Hnb Hfuel Hops Hna3 Hnb3 Hlen.
  destruct (runOps_sound fuel ops (newHashMap na, newHashMap nb))
    as ([a b] & Hr & (Ha & Hla & _) & (Hb & Hlb & _)); try done;
    try (by apply sound_newHashMap).
  exists a, b. split; [done|]. simpl in *. clear Hna3 Hnb3 Hlen.
  destruct Ha as (Hna' & _ & Hsa), Hb as (Hnb' & _ & Hsb).
  unfold loadBounded, countIsChainSum, size in *.
  split; (split; [done|]); split; try lia; Z.quot_rem_to_equations; lia.
Qed.

(** X12: two [set] calls with different keys commute as far as the content
    goes: in either order both succeed, and the two results hold the same
    entries (possibly in another chain order), report the same [size()]
    and answer every query alike.  The slot count and the item count are
    such that the [int] arithmetic of the two calls does not overflow. *)
Theorem X12_set_commute fuel k1 v1 k2 v2 m :
  wellFormed m → validKey k1 → validKey k2 → k1 ≠ k2 → (3 ≤ fuel)%nat →
  3 * getNumSlots m <= INT_MAX → 4 * (size m + 2) <= INT_MAX →
  ∃ m12 m21,
    setAll fuel [(k1, v1); (k2, v2)] m = Ok m12 ∧
    setAll fuel [(k2, v2); (k1, v1)] m = Ok m21 ∧
    entries m12 ≡ₚ entries m21 ∧ size m12 = size m21 ∧
    ∀ k, validKey k →
      contains k m12 = contains k m21 ∧
      operator_subscript k m12 = operator_subscript k m21.
Proof.
  intros Hwf%wf_wellFormed Hk1 Hk2 Hne Hfuel Hfit1 Hfit2. unfold size in Hfit2.
  assert (Hstep : ∀ k v, validKey k →
            ∃ m', set fuel k v m = Ok m' ∧ wf m' ∧ intFits m' 1 ∧
                  ∀ k', find k' m' = if decide (k' = k) then Some v else find k' m).
  { intros k v Hk.
    destruct (set_spec_slots fuel k v m Hwf Hk Hfuel)
      as (m' & Hs & Hwf' & _ & Hi' & Hf & Ht); [split; [done|lia]|].
    exists m'. split; [done|]. split; [done|]. split; [|done].
    split; [done|]. rewrite Ht. destruct (find k m); lia. }
  destruct (Hstep k1 v1 Hk1) as (m1 & Hs1 & Hwf1 & Hfit1' & Hf1).
  destruct (Hstep k2 v2 Hk2) as (m2 & Hs2 & Hwf2 & Hfit2' & Hf2).
  destruct (set_spec fuel k2 v2 m1 Hwf1 Hk2 Hfuel Hfit1') as (m12 & Hs12 & Hwf12 & Hf12 & _).
  destruct (set_spec fuel k1 v1 m2 Hwf2 Hk1 Hfuel Hfit2') as (m21 & Hs21 & Hwf21 & Hf21 & _).
  assert (Hf : ∀ k, find k m12 = find k m21).
  { intros k. rewrite Hf12, Hf1, Hf21, Hf2. repeat case_decide; congruence. }
  assert (Hperm : entries m12 ≡ₚ entries m21) by (by apply entries_perm).
  exists m12, m21. cbn [setAll]. rewrite Hs1, Hs2. cbn [bind].
  rewrite Hs12, Hs21. cbn [bind]. split_and!; try done.
  - rewrite (size_keys m12), (size_keys m21) by done. by rewrite Hperm.
  - intros k Hk. destruct Hwf12 as (? & _), Hwf21 as (? & _).
    by apply queries_of_find.
Qed.

(** X14: on a well-formed map, [set (k, v)] of a key that is not in the
    map followed by [remove (k)] restores the content: the same entries,
    the same [size()] and the same answer for every key (the slot count
    may have grown on the way).  The slot count and the item count are
    such that the [int] arithmetic of [set] does not overflow. *)
Theorem X14_set_then_remove fuel k v m :
  wellFormed m → validKey k → contains k m = Ok false → (3 ≤ fuel)%nat →
  3 * getNumSlots m <= INT_MAX → 4 * (size m + 1) <= INT_MAX →
  ∃ m1 m2, set fuel k v m = Ok m1 ∧ remove k m1 = Ok m2 ∧
           wellFormed m2 ∧ entries m2 ≡ₚ entries m ∧ size m2 = size m ∧
           ∀ k', validKey k' →
             contains k' m2 = contains k' m ∧
             operator_subscript k' m2 = operator_subscript k' m.
Proof.
  intros Hwf%wf_wellFormed Hk Hc Hfuel Hfit1 Hfit2. pose proof Hwf as (Hn & _).
  apply contains_false_find in Hc; [|done..].
  destruct (set_spec fuel k v m Hwf Hk Hfuel (conj Hfit1 Hfit2))
    as (m1 & Hs1 & Hwf1 & Hf1 & Ht1).
  destruct (remove_spec k m1 Hwf1 Hk) as (m2 & Hr2 & Hwf2 & _ & Hf2 & Ht2).
  assert (Hf : ∀ k', find k' m2 = find k' m).
  { intros k'. rewrite Hf2, Hf1. case_decide; [by subst k'|done]. }
  pose proof Hwf2 as (Hn2 & _).
  exists m1, m2. split_and!; try done.
  - by apply wf_wellFormed.
  - by apply entries_perm.
  - unfold size. rewrite Ht2, Ht1, Hf1, Hc, decide_True by done. lia.
  - intros k' Hk'. by apply queries_of_find.
Qed.


Lemma nextSlot_false (all rest : list chain) (i : Z) it' :
  0 <= i → rest = drop (Z.to_nat i) all → nextSlot rest i = (false, it') →
  entry it' = [] ∧ drop (Z.to_nat (index it')) all = [].
Proof.
  revert i. induction rest as [|c rest' IH]; intros i Hi Hrest.
  - cbn [nextSlot]. intros [= <-]. by cbn [entry index].
  - assert (Hnext : rest' = drop (Z.to_nat (i + 1)) all).
    { assert (Hc : all !! Z.to_nat i = Some c).
      { pose proof (lookup_drop all (Z.to_nat i) 0) as Hl.
        rewrite <- Hrest, Nat.add_0_r in Hl. by rewrite <- Hl. }
      rewrite (drop_S all c _ Hc) in Hrest. injection Hrest as ->.
      f_equal. lia. }
    destruct c as [|e tl]; cbn [nextSlot]; [|done].
    apply IH; [lia|done].
Qed.

(** X15: once [Iterator::next] has returned false the iterator stays at
    the end: every further [next] returns false again and leaves it as it
    is, and [getKey] and [getValue] return the default-constructed key and
    value. *)
Theorem X15_iterator_at_end fuel m it it' :
  0 <= index it → next m it = (false, it') →
  next m it' = (false, it') ∧ iterate fuel m it' = [] ∧
  getKey it' = defaultKey ∧ getValue it' = defaultValue.
Proof.
  intros Hi Hnext.
  assert (Hend : entry it' = [] ∧ drop (Z.to_nat (index it')) (slots m) = []).
  { unfold next in Hnext. destruct (entry it) as [|x [|y tl]]; [| |done].
    - by apply (nextSlot_false (slots m)
                  (drop (Z.to_nat (index it)) (slots m)) (index it)).
    - by apply (nextSlot_false (slots m)
                  (drop (Z.to_nat (index it)) (slots m)) (index it)). }
  destruct Hend as [He Hd]. destruct it' as [e' i']. cbn [entry index] in *.
  subst e'.
  assert (Hagain : next m (mkIterator [] i') = (false, mkIterator [] i')).
  { unfold next. cbn [entry index]. by rewrite Hd. }
  split_and!; try done.
  destruct fuel as [|fuel]; [done|]. cbn [iterate]. by rewrite Hagain.
Qed.

End HashMap.

(** ** [HashMap<int, ...>] with the default hash function *)

Lemma std_abs_small k : INT_MIN < k → k <= INT_MAX → std_abs k = Z.abs k.
Proof.
  unfold INT_MIN, INT_MAX, std_abs, wrap_int. intros H1 H2.
  rewrite Z.mod_small by lia. lia.
Qed.

Lemma std_abs_INT_MIN : std_abs INT_MIN = INT_MIN.
Proof. reflexivity. Qed.

Lemma default_hash_contract : hashContract DefaultHashFunctions.generateHash intKey.
Proof.
  intros k n [H1 H2] Hn. unfold DefaultHashFunctions.generateHash.
  rewrite std_abs_small by done. apply Z.rem_bound_pos; lia.
Qed.

Lemma isPositiveAndBelow_true v u :
  isPositiveAndBelow v u = true ↔ 0 <= v < u.
Proof.
  unfold isPositiveAndBelow. rewrite andb_true_iff, Z.leb_le, Z.ltb_lt. done.
Qed.

Lemma sampleMap_reached :
  setAll DefaultHashFunctions.generateHash 3 [(4, 40); (1, 10); (2, 20)]
    (newHashMap 3) = Ok sampleMap.
Proof. reflexivity. Qed.

Lemma fullMap_reached :
  set DefaultHashFunctions.generateHash 3 3 30 sampleMap = Ok fullMap.
Proof. reflexivity. Qed.

Lemma reached_wellFormed calls n (m : @HashMap Z Z) :
  0 < n → (∀ k v, (k, v) ∈ calls → intKey k) →
  3 * n <= INT_MAX → 4 * Z.of_nat (length calls) <= INT_MAX →
  setAll DefaultHashFunctions.generateHash 3 calls (newHashMap n) = Ok m →
  wellFormed DefaultHashFunctions.generateHash intKey m.
Proof.
  intros Hn Hvalid Hfit1 Hfit2 Hrun.
  destruct (setAll_spec _ intKey default_hash_contract 3 calls (newHashMap n))
    as (m' & Hrun' & Hwf & _);
    [by apply wf_newHashMap|by apply loadBounded_newHashMap|lia|done| |].
  { split; [rewrite getNumSlots_newHashMap; lia|cbn; lia]. }
  rewrite Hrun in Hrun'. injection Hrun' as <-.
  by apply wf_wellFormed.
Qed.

Lemma small_keys_valid (calls : list (Z * Z)) :
  forallb (λ c, (INT_MIN <? c.1) && (c.1 <=? INT_MAX)) calls = true →
  ∀ k v, (k, v) ∈ calls → intKey k.
Proof.
  intros Hall k v Hin. apply list_elem_of_In in Hin.
  rewrite forallb_forall in Hall. specialize (Hall _ Hin). simpl in Hall.
  apply andb_true_iff in Hall as [H1%Z.ltb_lt H2%Z.leb_le]. by split.
Qed.

Lemma sampleMap_wellFormed :
  wellFormed DefaultHashFunctions.generateHash intKey sampleMap.
Proof.
  apply (reached_wellFormed [(4, 40); (1, 10); (2, 20)] 3);
    [done| |by vm_compute|by vm_compute|done].
  by apply small_keys_valid.
Qed.

Lemma fullMap_wellFormed :
  wellFormed DefaultHashFunctions.generateHash intKey fullMap.
Proof.
  apply (reached_wellFormed [(4, 40); (1, 10); (2, 20); (3, 30)] 3);
    [done| |by vm_compute|by vm_compute|done].
  by apply small_keys_valid.
Qed.

(** ** The claims on the default hash function and on concrete maps *)

(** C10, as the code has it: for an [int] key other than [INT_MIN] and a
    positive [upperLimit] the default hash passes the range check of
    [generateHashFor]; for [INT_MIN] it is minus the remainder of 2^31 by
    [upperLimit], which fails the check exactly when [upperLimit] does not
    divide 2^31 and is 0 otherwise. *)
Theorem C10_default_hash_range :
  (∀ k u, is_int k → k ≠ INT_MIN → 0 < u <= INT_MAX →
     isPositiveAndBelow (DefaultHashFunctions.generateHash k u) u = true) ∧
  (∀ u, 0 < u <= INT_MAX →
     DefaultHashFunctions.generateHash INT_MIN u = - (2 ^ 31 mod u) ∧
     (isPositiveAndBelow (DefaultHashFunctions.generateHash INT_MIN u) u = false
      ↔ 2 ^ 31 mod u ≠ 0)).
Proof.
  split.
  - intros k u [Hk1 Hk2] Hne Hu. apply isPositiveAndBelow_true.
    apply default_hash_contract; [split|]; lia.
  - intros u Hu. unfold DefaultHashFunctions.generateHash.
    rewrite std_abs_INT_MIN.
    assert (Hrem : Z.rem INT_MIN u = - (2 ^ 31 mod u)).
    { unfold INT_MIN. rewrite Z.rem_opp_l by lia.
      rewrite Z.rem_mod_nonneg by lia. done. }
    rewrite Hrem. split; [done|].
    pose proof (Z.mod_pos_bound (2 ^ 31) u ltac:(lia)) as Hb.
    rewrite <- not_true_iff_false, isPositiveAndBelow_true. lia.
Qed.

Lemma C10_default_hash_range_witness :
  isPositiveAndBelow (DefaultHashFunctions.generateHash (-7) 101) 101 = true ∧
  isPositiveAndBelow (DefaultHashFunctions.generateHash INT_MIN 101) 101 = false.
Proof.
  split.
  - apply (proj1 C10_default_hash_range (-7) 101); [by vm_compute|done|by vm_compute].
  - apply (proj2 C10_default_hash_range 101); [by vm_compute|by vm_compute].
Defined.

(** With two slots the key [INT_MIN] hashes to 0, inside the range. *)
Lemma C10_counterexample :
  0 < 2 ∧
  DefaultHashFunctions.generateHash INT_MIN 2 = 0 ∧
  isPositiveAndBelow (DefaultHashFunctions.generateHash INT_MIN 2) 2 = true.
Proof. by vm_compute. Qed.

(** C2: on a well-formed map within the load bound (every reachable map
    is, see [reachable_wellFormed_loadBounded]), [set] rebuilds the table
    with twice the slots exactly when the key is new and the new item count
    exceeds one and a half times the slot count, and the load bound holds
    again afterwards, provided three times the slot count and four times
    the new item count fit in an [int], so that the [int] arithmetic of the
    growth test and of the doubling does not overflow; inserting the keys 1
    to 1000 into a map of 101 slots leaves 1000 items in 808 slots (three
    doublings), and key 500 is found with the value assigned to it. *)
Theorem C2_growth_policy :
  (∀ (K V : Type) `(!EqDecision K) (generateHash : K → Z → Z) (dflt : V)
     (validKey : K → Prop),
     hashContract generateHash validKey →
     ∀ fuel k v (m : @HashMap K V),
       wellFormed generateHash validKey m → loadBounded m → validKey k →
       (2 ≤ fuel)%nat →
       3 * getNumSlots m <= INT_MAX → 4 * (size m + 1) <= INT_MAX →
       ∃ m', set generateHash fuel k v m = Ok m' ∧
             wellFormed generateHash validKey m' ∧ loadBounded m' ∧
             (∀ k', validKey k' →
                operator_subscript generateHash dflt k' m' =
                if decide (k' = k) then Ok v
                else operator_subscript generateHash dflt k' m) ∧
             (contains generateHash k m = Ok false →
              3 * getNumSlots m < 2 * (size m + 1) →
                getNumSlots m' = getNumSlots m * 2 ∧
                remapTable generateHash (pred fuel) (getNumSlots m * 2)
                  (linkNewEntry (generateHash k (getNumSlots m)) k v m) = Ok m') ∧
             (contains generateHash k m = Ok true ∨
              2 * (size m + 1) <= 3 * getNumSlots m →
                getNumSlots m' = getNumSlots m)) ∧
  (∀ (V : Type) (val : Z → V) (dflt : V),
     ∃ m, setAll DefaultHashFunctions.generateHash 3
            (assignAll val (keysUpTo 1000)) (newHashMap 101) = Ok m ∧
          size m = 1000 ∧
          getNumSlots m = 101 * 2 ^ 3 ∧
          operator_subscript DefaultHashFunctions.generateHash dflt 500 m
          = Ok (val 500)).
Proof.
  split.
  - intros K V ? generateHash dflt validKey Hhash fuel k v m.
    apply set_growth_rule. done.
  - intros V val dflt. eexists. split; [vm_compute; reflexivity|].
    by vm_compute.
Qed.

Lemma C2_growth_policy_witness :
  ∃ m', set DefaultHashFunctions.generateHash 2 7 70 fullMap = Ok m' ∧
        getNumSlots m' = 6 ∧
        operator_subscript DefaultHashFunctions.generateHash 0 7 m' = Ok 70.
Proof.
  destruct (proj1 C2_growth_policy Z Z _ DefaultHashFunctions.generateHash 0 intKey
              default_hash_contract 2%nat 7 70 fullMap)
    as (m' & Hs & _ & _ & Hf & Hg & _).
  - apply fullMap_wellFormed.
  - by vm_compute.
  - by vm_compute.
  - lia.
  - by vm_compute.
  - by vm_compute.
  - exists m'. split; [done|]. split.
    + apply Hg; by vm_compute.
    + rewrite Hf by (by vm_compute). done.
Defined.

Lemma C1_set_sequence_witness :
  ∃ m, setAll DefaultHashFunctions.generateHash 3 [(1, 10); (4, 40); (1, 11)]
         (newHashMap 3) = Ok m ∧
       size m = Z.of_nat (distinctKeys [(1, 10); (4, 40); (1, 11)]) ∧
       ∀ k, k ∈ [(1, 10); (4, 40); (1, 11)].*1 →
            ∃ v, lastSet k [(1, 10); (4, 40); (1, 11)] = Some v ∧
                 operator_subscript DefaultHashFunctions.generateHash 0 k m = Ok v.
Proof.
  apply (C1_set_sequence DefaultHashFunctions.generateHash 0 intKey
           default_hash_contract 3 3 [(1, 10); (4, 40); (1, 11)]).
  - lia.
  - lia.
  - by apply small_keys_valid.
  - by vm_compute.
  - by vm_compute.
Defined.

Lemma C3_remapTable_twice_witness :
  ∃ m1 m2, remapTable DefaultHashFunctions.generateHash 2 5 sampleMap = Ok m1 ∧
           remapTable DefaultHashFunctions.generateHash 2 2 m1 = Ok m2 ∧
           entries m2 ≡ₚ entries sampleMap ∧
           size m2 = size sampleMap ∧
           ∀ k, intKey k →
                operator_subscript DefaultHashFunctions.generateHash 0 k m2 =
                operator_subscript DefaultHashFunctions.generateHash 0 k sampleMap ∧
                contains DefaultHashFunctions.generateHash k m2 =
                contains DefaultHashFunctions.generateHash k sampleMap.
Proof.
  apply (C3_remapTable_twice DefaultHashFunctions.generateHash 0 intKey
           default_hash_contract 2 5 2 sampleMap).
  - apply sampleMap_wellFormed.
  - lia.
  - lia.
  - lia.
  - by vm_compute.
  - by vm_compute.
  - by vm_compute.
Defined.

Lemma C4_invariants_witness :
  ∃ a b : @HashMap Z Z,
    runOps DefaultHashFunctions.generateHash 3
      [OpSet MapA 1 10; OpSet MapB 4 40; OpSet MapA 4 41; OpSwapWith;
       OpRemapTable MapA 7; OpRemove MapB 1; OpRemoveValue MapA 40; OpClear MapB]
      (newHashMap 3, newHashMap 5) = Ok (a, b) ∧
    (entriesInOwnBucket DefaultHashFunctions.generateHash a ∧
     keysUnique a ∧ countIsChainSum a) ∧
    (entriesInOwnBucket DefaultHashFunctions.generateHash b ∧
     keysUnique b ∧ countIsChainSum b).
Proof.
  apply (C4_invariants DefaultHashFunctions.generateHash intKey
           default_hash_contract 3 3 5).
  - lia.
  - lia.
  - lia.
  - repeat constructor; by vm_compute.
  - by vm_compute.
  - by vm_compute.
  - by vm_compute.
Defined.

Lemma C5_remove_and_absent_witness :
  (∃ m', remove DefaultHashFunctions.generateHash 4 sampleMap = Ok m' ∧
         contains DefaultHashFunctions.generateHash 4 m' = Ok false ∧
         operator_subscript DefaultHashFunctions.generateHash 0 4 m' = Ok 0) ∧
  (contains DefaultHashFunctions.generateHash 4 sampleMap = Ok false →
     remove DefaultHashFunctions.generateHash 4 sampleMap = Ok sampleMap ∧
     operator_subscript DefaultHashFunctions.generateHash 0 4 sampleMap = Ok 0) ∧
  (∃ v, operator_subscript DefaultHashFunctions.generateHash 0 4 sampleMap = Ok v).
Proof.
  apply (C5_remove_and_absent DefaultHashFunctions.generateHash 0 intKey
           default_hash_contract 4 sampleMap).
  - by vm_compute.
  - by vm_compute.
Defined.

Lemma C6_removeValue_witness :
  contains DefaultHashFunctions.generateHash 4 (removeValue 40 sampleMap) = Ok false ∧
  contains DefaultHashFunctions.generateHash 1 (removeValue 40 sampleMap) = Ok true ∧
  operator_subscript DefaultHashFunctions.generateHash 0 1 (removeValue 40 sampleMap)
  = Ok 10.
Proof.
  pose proof (C6_removeValue DefaultHashFunctions.generateHash 0 intKey
                default_hash_contract 40 sampleMap) as (_ & _ & _ & Hq).
  specialize (Hq sampleMap_wellFormed).
  assert (H4 : mkEntry 4 40 ∈ entries sampleMap)
    by (apply list_elem_of_In; simpl; tauto).
  assert (H1 : mkEntry 1 10 ∈ entries sampleMap)
    by (apply list_elem_of_In; simpl; tauto).
  split.
  - exact (Hq 4 40 ltac:(by vm_compute) H4).
  - exact (Hq 1 10 ltac:(by vm_compute) H1).
Defined.

Lemma C8_set_links_at_head_witness :
  getUnchecked
    (slots (linkNewEntry (DefaultHashFunctions.generateHash 7 (getNumSlots sampleMap))
              7 70 sampleMap))
    (DefaultHashFunctions.generateHash 7 (getNumSlots sampleMap))
  = mkEntry 7 70
      :: getUnchecked (slots sampleMap)
           (DefaultHashFunctions.generateHash 7 (getNumSlots sampleMap)) ∧
  ∃ m', set DefaultHashFunctions.generateHash 3 7 70 sampleMap = Ok m' ∧
        size m' = size sampleMap + 1.
Proof.
  pose proof (C8_set_links_at_head DefaultHashFunctions.generateHash intKey
                default_hash_contract 3 7 70 sampleMap) as H.
  destruct H as (Hhead & _ & _ & _ & Hsize).
  - apply sampleMap_wellFormed.
  - by vm_compute.
  - by vm_compute.
  - lia.
  - by vm_compute.
  - by vm_compute.
  - by split.
Defined.

(** [set (7, 70)] on the sample map: 7 is a new key hashing to slot 1,
    whose chain holds the keys 1 and 4; afterwards the new entry is the
    first of the chain, not the last. *)
Lemma C8_counterexample :
  contains DefaultHashFunctions.generateHash 7 sampleMap = Ok false ∧
  DefaultHashFunctions.generateHash 7 (getNumSlots sampleMap) = 1 ∧
  ∃ m', set DefaultHashFunctions.generateHash 3 7 70 sampleMap = Ok m' ∧
        getUnchecked (slots m') 1 =
          [mkEntry 7 70; mkEntry 1 10; mkEntry 4 40] ∧
        getUnchecked (slots m') 1 ≠
          getUnchecked (slots sampleMap) 1 ++ [mkEntry 7 70].
Proof.
  split; [done|]. split; [done|]. eexists. split; [reflexivity|].
  split; [done|]. by vm_compute.
Qed.

(** ** Further properties: the string hash and concrete maps *)

(** X11: the default hash of a [String] (and of a [var], through its
    string) is in range for every key and every positive [int] slot
    count, whatever [hashCode] returns: the remainder is taken on the
    unsigned value, so, unlike the [int] hash, no key fails the range
    assertion. *)
Theorem X11_string_hash_in_range {S X : Type}
  (hashCode : S → Z) (toString : X → S) (key : S) (vkey : X) (u : Z) :
  0 < u <= INT_MAX →
  isPositiveAndBelow (DefaultHashFunctions.generateHashString hashCode key u) u
  = true ∧
  isPositiveAndBelow
    (DefaultHashFunctions.generateHashVar toString hashCode vkey u) u = true.
Proof.
  intros Hu.
  assert (Hin : ∀ h, isPositiveAndBelow
            (wrap_int (DefaultHashFunctions.to_uint32 h
                       mod DefaultHashFunctions.to_uint32 u)) u = true).
  { intros h. apply isPositiveAndBelow_true.
    unfold DefaultHashFunctions.to_uint32, wrap_int, INT_MAX in *.
    rewrite (Z.mod_small u) by lia.
    pose proof (Z.mod_pos_bound (h mod 2 ^ 32) u ltac:(lia)) as Hb.
    rewrite (Z.mod_small (_ + _)) by lia. lia. }
  split; apply Hin.
Qed.

Lemma X11_string_hash_in_range_witness :
  isPositiveAndBelow
    (DefaultHashFunctions.generateHashString (λ s : Z, s) (-7) 101) 101 = true ∧
  isPositiveAndBelow
    (DefaultHashFunctions.generateHashVar (λ x : Z, x) (λ s : Z, s) INT_MIN 101)
    101 = true.
Proof.
  apply (X11_string_hash_in_range (λ s : Z, s) (λ x : Z, x) (-7) INT_MIN 101).
  by vm_compute.
Defined.

Lemma X1_iterator_visits_entries_witness :
  iterate 0 0 4 sampleMap newIterator = [(1, 10); (4, 40); (2, 20)].
Proof.
  apply (X1_iterator_visits_entries 0 0 4 sampleMap). simpl. lia.
Defined.

Lemma X2_iterator_agrees_with_lookup_witness :
  Z.of_nat (length (iterate 0 0 4 sampleMap newIterator)) = size sampleMap ∧
  NoDup ((iterate 0 0 4 sampleMap newIterator).*1) ∧
  ∀ k v, intKey k →
    (k, v) ∈ iterate 0 0 4 sampleMap newIterator ↔
    contains DefaultHashFunctions.generateHash k sampleMap = Ok true ∧
    operator_subscript DefaultHashFunctions.generateHash 0 k sampleMap = Ok v.
Proof.
  apply (X2_iterator_agrees_with_lookup DefaultHashFunctions.generateHash 0 0
           intKey default_hash_contract 4 sampleMap).
  - apply sampleMap_wellFormed.
  - simpl. lia.
Defined.

Lemma X3_clear_witness :
  size (clear sampleMap) = 0 ∧
  getNumSlots (clear sampleMap) = getNumSlots sampleMap ∧
  entries (clear sampleMap) = [] ∧
  wellFormed DefaultHashFunctions.generateHash intKey (clear sampleMap) ∧
  contains DefaultHashFunctions.generateHash 4 (clear sampleMap) = Ok false ∧
  operator_subscript DefaultHashFunctions.generateHash 0 4 (clear sampleMap) = Ok 0.
Proof.
  apply (X3_clear DefaultHashFunctions.generateHash 0 intKey
           default_hash_contract 4 sampleMap).
  - by vm_compute.
  - by vm_compute.
Defined.

Lemma X4_set_then_lookup_witness :
  ∃ m', set DefaultHashFunctions.generateHash 3 7 70 sampleMap = Ok m' ∧
        contains DefaultHashFunctions.generateHash 7 m' = Ok true ∧
        operator_subscript DefaultHashFunctions.generateHash 0 7 m' = Ok 70 ∧
        size m' = size sampleMap + 1.
Proof.
  destruct (X4_set_then_lookup DefaultHashFunctions.generateHash 0 intKey
              default_hash_contract 3 7 70 sampleMap)
    as (m' & Hs & _ & _ & Hc & Ho & _ & _ & Hsize).
  - apply sampleMap_wellFormed.
  - by vm_compute.
  - lia.
  - by vm_compute.
  - by vm_compute.
  - exists m'. split_and!; try done. by apply Hsize.
Defined.

Lemma X5_set_present_key_witness :
  ∃ m', set DefaultHashFunctions.generateHash 1 4 41 sampleMap = Ok m' ∧
        getNumSlots m' = getNumSlots sampleMap ∧ size m' = size sampleMap ∧
        operator_subscript DefaultHashFunctions.generateHash 0 4 m' = Ok 41.
Proof.
  destruct (X5_set_present_key DefaultHashFunctions.generateHash 0 0%nat 4 41
              sampleMap) as (m' & Hs & Hn & Hsize & _ & Ho & _).
  - by vm_compute.
  - by exists m'.
Defined.

Lemma X6_remove_other_keys_witness :
  ∃ m', remove DefaultHashFunctions.generateHash 4 sampleMap = Ok m' ∧
        getNumSlots m' = getNumSlots sampleMap ∧
        size m' = size sampleMap - 1 ∧
        operator_subscript DefaultHashFunctions.generateHash 0 1 m' =
        operator_subscript DefaultHashFunctions.generateHash 0 1 sampleMap.
Proof.
  destruct (X6_remove_other_keys DefaultHashFunctions.generateHash 0 intKey
              default_hash_contract 4 sampleMap)
    as (m' & Hr & _ & Hn & Hother & Hsize & _).
  - apply sampleMap_wellFormed.
  - by vm_compute.
  - exists m'. split_and!; try done.
    + by apply Hsize.
    + apply Hother; by vm_compute.
Defined.

Lemma X7_containsValue_witness :
  containsValue 40 sampleMap = true ↔
  ∃ k, intKey k ∧
       contains DefaultHashFunctions.generateHash k sampleMap = Ok true ∧
       operator_subscript DefaultHashFunctions.generateHash 0 k sampleMap = Ok 40.
Proof.
  apply (X7_containsValue DefaultHashFunctions.generateHash 0 intKey
           default_hash_contract 40 sampleMap).
  apply sampleMap_wellFormed.
Defined.

Lemma X8_removeValue_containsValue_witness :
  containsValue 40 (removeValue 40 sampleMap) = false ∧
  removeValue 99 sampleMap = sampleMap ∧
  containsValue 10 (removeValue 40 sampleMap) = containsValue 10 sampleMap.
Proof.
  destruct (X8_removeValue_containsValue 40 sampleMap) as (Hgone & _ & Hother).
  destruct (X8_removeValue_containsValue 99 sampleMap) as (_ & Hnoop & _).
  split_and!.
  - exact Hgone.
  - apply Hnoop. by vm_compute.
  - apply Hother. by vm_compute.
Defined.

Lemma X9_remapTable_once_witness :
  (∃ m', remapTable DefaultHashFunctions.generateHash 2 5 sampleMap = Ok m' ∧
         size m' = size sampleMap ∧ getNumSlots m' = 5) ∧
  (∃ m', remapTable DefaultHashFunctions.generateHash 2 1 sampleMap = Ok m' ∧
         size m' = size sampleMap ∧ 1 < getNumSlots m').
Proof.
  split.
  - destruct (X9_remapTable_once DefaultHashFunctions.generateHash 0 intKey
                default_hash_contract 2 5 sampleMap)
      as (m' & Hr & _ & _ & Hsize & _ & Hfit & _).
    + apply sampleMap_wellFormed.
    + lia.
    + lia.
    + by vm_compute.
    + by vm_compute.
    + exists m'. split_and!; try done. apply Hfit. by vm_compute.
  - destruct (X9_remapTable_once DefaultHashFunctions.generateHash 0 intKey
                default_hash_contract 2 1 sampleMap)
      as (m' & Hr & _ & _ & Hsize & _ & _ & Hover).
    + apply sampleMap_wellFormed.
    + lia.
    + lia.
    + by vm_compute.
    + by vm_compute.
    + exists m'. split_and!; try done. apply Hover. by vm_compute.
Defined.

Lemma X10_reachable_load_bound_witness :
  ∃ a b : @HashMap Z Z,
    runOps DefaultHashFunctions.generateHash 2
      [OpSet MapA 1 10; OpSet MapA 2 20; OpRemapTable MapA 1; OpSwapWith;
       OpSet MapB 3 30; OpRemove MapA 1; OpRemoveValue MapB 20; OpClear MapA]
      (newHashMap 1, newHashMap 5) = Ok (a, b) ∧
    (0 < getNumSlots a ∧ 0 <= size a ∧ 2 * size a <= 3 * getNumSlots a) ∧
    (0 < getNumSlots b ∧ 0 <= size b ∧ 2 * size b <= 3 * getNumSlots b).
Proof.
  apply (X10_reachable_load_bound DefaultHashFunctions.generateHash intKey
           default_hash_contract 2 1 5).
  - lia.
  - lia.
  - lia.
  - repeat constructor; by vm_compute.
  - by vm_compute.
  - by vm_compute.
  - by vm_compute.
Defined.

Lemma X12_set_commute_witness :
  ∃ m12 m21 : @HashMap Z Z,
    setAll DefaultHashFunctions.generateHash 3 [(7, 70); (8, 80)] sampleMap = Ok m12 ∧
    setAll DefaultHashFunctions.generateHash 3 [(8, 80); (7, 70)] sampleMap = Ok m21 ∧
    entries m12 ≡ₚ entries m21 ∧ size m12 = size m21 ∧
    ∀ k, intKey k →
      contains DefaultHashFunctions.generateHash k m12 =
      contains DefaultHashFunctions.generateHash k m21 ∧
      operator_subscript DefaultHashFunctions.generateHash 0 k m12 =
      operator_subscript DefaultHashFunctions.generateHash 0 k m21.
Proof.
  apply (X12_set_commute DefaultHashFunctions.generateHash 0 intKey
           default_hash_contract 3 7 70 8 80 sampleMap).
  - apply sampleMap_wellFormed.
  - by vm_compute.
  - by vm_compute.
  - lia.
  - lia.
  - by vm_compute.
  - by vm_compute.
Defined.

Lemma X14_set_then_remove_witness :
  ∃ m1 m2 : @HashMap Z Z,
    set DefaultHashFunctions.generateHash 3 7 70 sampleMap = Ok m1 ∧
    remove DefaultHashFunctions.generateHash 7 m1 = Ok m2 ∧
    entries m2 ≡ₚ entries sampleMap ∧ size m2 = size sampleMap.
Proof.
  destruct (X14_set_then_remove DefaultHashFunctions.generateHash 0 intKey
              default_hash_contract 3 7 70 sampleMap)
    as (m1 & m2 & Hs & Hr & _ & Hperm & Hsize & _).
  - apply sampleMap_wellFormed.
  - by vm_compute.
  - by vm_compute.
  - lia.
  - by vm_compute.
  - by vm_compute.
  - by exists m1, m2.
Defined.

(** X16: the default hash of an [int] key ignores its sign: a key other
    than [INT_MIN] and its negation always hash to the same slot, and a key
    that is not negative hashes to its remainder by the slot count. *)
Theorem X16_int_hash_ignores_sign k u :
  is_int k → k ≠ INT_MIN → 0 < u →
  DefaultHashFunctions.generateHash (- k) u = DefaultHashFunctions.generateHash k u ∧
  (0 <= k → DefaultHashFunctions.generateHash k u = k mod u).
Proof.
  intros [Hk1 Hk2] Hne Hu. unfold DefaultHashFunctions.generateHash.
  rewrite !std_abs_small by (unfold INT_MIN, INT_MAX in *; lia).
  rewrite Z.abs_opp. split; [done|].
  intros Hk. rewrite Z.abs_eq by done. apply Z.rem_mod_nonneg; lia.
Qed.

Lemma X16_int_hash_ignores_sign_witness :
  DefaultHashFunctions.generateHash (- 205) 101 =
  DefaultHashFunctions.generateHash 205 101 ∧
  (0 <= 205 → DefaultHashFunctions.generateHash 205 101 = 205 mod 101).
Proof.
  apply (X16_int_hash_ignores_sign 205 101); by vm_compute.
Defined.

Lemma X15_iterator_at_end_witness :
  next (clear sampleMap) (mkIterator [] 3) = (false, mkIterator [] 3) ∧
  iterate 0 0 5 (clear sampleMap) (mkIterator [] 3) = [] ∧
  getKey 0 (@mkIterator Z Z [] 3) = 0 ∧ getValue 0 (@mkIterator Z Z [] 3) = 0.
Proof.
  apply (X15_iterator_at_end 0 0 5 (clear sampleMap) newIterator (mkIterator [] 3)).
  - by vm_compute.
  - reflexivity.
Defined.
